(** * A TikTok relay bot: key rotation, link validation, provider fan-out

    A shallow embedding of [src/index.js]: the key rotator [getNextKey], the
    two provider descriptors of [API_PROVIDERS] with their [extract]
    functions, the link validator [isTikTokUrl] (the regular expression
    [TIKTOK_REGEX], the URL parse and the host allow-list) and the
    orchestrator [fetchViaProviders]. *)

From Stdlib Require Import Floats.SpecFloat.
From Stdlib Require Import String Ascii.
From stdpp Require Import gmap list.

Set Default Proof Using "Type".
Set Warnings "-register-all".

(** ** JavaScript strings

    A JavaScript string is a sequence of UTF-16 code units; the regular
    expression (which has no [u] flag) works on code units. *)

Abbreviation code_unit := N (only parsing).
Abbreviation jsstring := (list N) (only parsing).

(** The code units of an ASCII literal. *)
Definition u (s : String.string) : jsstring :=
  map (fun a => N.of_nat (Ascii.nat_of_ascii a)) (String.list_ascii_of_string s).
Arguments u s%_string.

(** ** Decoded response bodies

    The value axios hands over as [res.data]: a JSON value (or a string when
    the body is not JSON). Numbers are IEEE doubles, objects are finite maps
    from property names to values. [VUndefined] is the result of reading a
    property that is not there. *)

Inductive value : Type :=
  | VUndefined
  | VNull
  | VBool (b : bool)
  | VNum (x : spec_float)
  | VStr (s : jsstring)
  | VArr (xs : list value)
  | VObj (props : gmap (list N) value).

(** ToBoolean. *)
Definition truthy (v : value) : bool :=
  match v with
  | VUndefined | VNull => false
  | VBool b => b
  | VNum (S754_zero _) | VNum S754_nan => false
  | VNum _ => true
  | VStr [] => false
  | VStr _ => true
  | VArr _ | VObj _ => true
  end.

(** [a || b]. *)
Definition js_or (a b : value) : value := if truthy a then a else b.

(** [v?.k] for the property names this program reads ([data], [play],
    [wmplay], [title], [author], [nickname]): [undefined] on [null] and
    [undefined]; the own property on an object; and [undefined] on strings,
    numbers, booleans and arrays, whose prototypes have no property of
    these names. *)
Definition opt_get (v : value) (k : jsstring) : value :=
  match v with
  | VObj props => default VUndefined (props !! k)
  | _ => VUndefined
  end.

Notation "v ?. k" := (opt_get v (u k)) (at level 9, k at level 0, format "v ?. k").

(** The [{videoUrl, title, author}] object an [extract] returns; [None] is
    its [null]. *)
Record normalized : Type := Normalized {
  videoUrl : value;
  title : value;
  author : value;
}.

(** [API_PROVIDERS[0].extract] *)
Definition extract1 (data : value) : option normalized :=
  let play := data?."data"?."play" in
  if negb (truthy play) then None
  else Some {|
    videoUrl := play;
    title := js_or data?."data"?."title" (VStr (u "TikTok Video"));
    author := js_or data?."data"?."author"?."nickname" (VStr (u "Unknown"));
  |}.

(** [API_PROVIDERS[1].extract] *)
Definition extract2 (data : value) : option normalized :=
  let play := js_or (js_or data?."data"?."play" data?."data"?."wmplay") data?."play" in
  if negb (truthy play) then None
  else Some {|
    videoUrl := play;
    title := js_or (js_or data?."data"?."title" data?."title") (VStr (u "TikTok Video"));
    author := js_or (js_or data?."data"?."author"?."nickname" data?."author")
                    (VStr (u "Unknown"));
  |}.

(** ** Process state and effects

    [RAPIDAPI_KEYS] and [keyIndex] are the two module-level bindings the
    rotator uses. [keyIndex] starts at 0 and is only ever incremented by one;
    it is modelled as a natural number (a JavaScript number holds such a
    count exactly up to 2^53 increments). [sent] is not a variable of the
    program: it records the HTTP requests issued so far, oldest first. *)

Record headers : Type := Headers {
  x_rapidapi_key : option (list N);   (* [None]: [undefined], read from an empty pool *)
  x_rapidapi_host : list N;
}.

Record request : Type := Request {
  req_method : list N;
  req_url : list N;
  req_params : list N * list N;        (* the single query parameter: key, value *)
  req_headers : headers;
  req_timeout : N;
}.

Record state : Type := State {
  RAPIDAPI_KEYS : list (list N);
  keyIndex : nat;
  sent : list request;
}.

(** A call either returns or throws. *)
Inductive error : Type := AxiosError.

Inductive completion (A : Type) : Type :=
  | Normal (a : A)
  | Throw (e : error).
Arguments Normal {A} a.
Arguments Throw {A} e.

Definition M (A : Type) : Type := state -> completion A * state.

Definition ret {A} (a : A) : M A := fun s => (Normal a, s).

Definition bind {A B} (m : M A) (k : A -> M B) : M B :=
  fun s => match m s with
           | (Normal a, s') => k a s'
           | (Throw e, s') => (Throw e, s')
           end.

(** [try { body } catch (e) { handler }] *)
Definition try_catch {A} (body : M A) (handler : error -> M A) : M A :=
  fun s => match body s with
           | (Normal a, s') => (Normal a, s')
           | (Throw e, s') => handler e s'
           end.

Declare Scope js_scope.
Delimit Scope js_scope with js.
Notation "x <- m ;; k" := (bind m (fun x => k))
  (at level 100, m at next level, right associativity) : js_scope.
Notation "m ;; k" := (bind m (fun _ => k))
  (at level 100, right associativity) : js_scope.
Open Scope js_scope.

Definition read {A} (f : state -> A) : M A := fun s => (Normal (f s), s).

Definition set_keyIndex (i : nat) : M unit :=
  fun s => (Normal tt, {| RAPIDAPI_KEYS := RAPIDAPI_KEYS s; keyIndex := i; sent := sent s |}).

(** ** Key rotator *)

(** [getNextKey]. Indexing an array out of range gives [undefined] ([None]);
    that only happens for an empty pool, which the module refuses at start. *)
Definition getNextKey : M (option (list N)) :=
  keys <- read RAPIDAPI_KEYS ;;
  i <- read keyIndex ;;
  let key := keys !! (i mod length keys) in
  set_keyIndex (i + 1) ;;
  ret key.

(** [n] sequential calls of the rotator, with the keys they return. *)
Fixpoint getNextKey_times (n : nat) : M (list (option (list N))) :=
  match n with
  | 0 => ret []
  | S n' => key <- getNextKey ;; keys <- getNextKey_times n' ;; ret (key :: keys)
  end.

(** The state the module starts in. *)
Definition initial (keys : list (list N)) : state :=
  {| RAPIDAPI_KEYS := keys; keyIndex := 0; sent := [] |}.

(** ** Provider registry *)

Record provider : Type := Provider {
  name : list N;
  url : list N;
  buildHeaders : M headers;
  extract : value -> M (option normalized);
  method : option (list N);
  paramKey : option (list N);
  timeout : option N;
}.

(** The [buildHeaders] of both descriptors, up to the host string. A
    descriptor's [extract] is a function value like any other, so its type
    lets it read and write the state and throw; the two of the registry are
    the pure [extract1] and [extract2]. *)
Definition rapidapi_headers (host : list N) : M headers :=
  key <- getNextKey ;;
  ret {| x_rapidapi_key := key; x_rapidapi_host := host |}.

Definition API_PROVIDERS : list provider := [
  {| name := u "RapidAPI-1";
     url := u "https://tiktok-video-no-watermark2.p.rapidapi.com/";
     buildHeaders := rapidapi_headers (u "tiktok-video-no-watermark2.p.rapidapi.com");
     extract := fun data => ret (extract1 data);
     method := Some (u "GET");
     paramKey := Some (u "url");
     timeout := Some 15000%N |};
  {| name := u "RapidAPI-2";
     url := u "https://tiktok-video-no-watermark.p.rapidapi.com/";
     buildHeaders := rapidapi_headers (u "tiktok-video-no-watermark.p.rapidapi.com");
     extract := fun data => ret (extract2 data);
     method := Some (u "GET");
     paramKey := Some (u "url");
     timeout := Some 15000%N |}
].

(** ** Fetch orchestrator *)

(** [{ok: true, provider, videoUrl, title, author}] or [{ok: false}]. *)
Inductive fetch_result : Type :=
  | Found (provider : list N) (videoUrl title author : value)
  | AllFailed.

(** [x || d] for an optional string field: the default replaces a missing
    and an empty string. *)
Definition or_string (x : option (list N)) (d : list N) : list N :=
  match x with
  | Some (c :: s) => c :: s
  | Some [] | None => d
  end.

(** [x || d] for an optional number field: the default replaces a missing
    number and zero. *)
Definition or_number (x : option N) (d : N) : N :=
  match x with
  | Some (Npos n) => Npos n
  | Some N0 | None => d
  end.

(** [normalized?.videoUrl] as a condition. *)
Definition has_videoUrl (normalized : option normalized) : bool :=
  match normalized with
  | Some n => truthy (videoUrl n)
  | None => false
  end.

Section Orchestrator.

(** What the network answers to a request, given the requests issued
    before it: [None] when [axios.request] rejects (network error, timeout,
    status outside 2xx), [Some data] when it resolves with [res.data]. *)
Variable network : list request -> request -> option value.

(** [await axios.request(req)], as far as [res.data]. One call is followed
    on its own: what other handlers do while it is suspended is outside
    the model. *)
Definition axios_request (req : request) : M value :=
  fun s =>
    let s' := {| RAPIDAPI_KEYS := RAPIDAPI_KEYS s; keyIndex := keyIndex s;
                 sent := sent s ++ [req] |} in
    match network (sent s) req with
    | Some data => (Normal data, s')
    | None => (Throw AxiosError, s')
    end.

(** The body of the [try] block; [Some] is its [return]. *)
Definition attempt (p : provider) (videoUrl : list N) : M (option fetch_result) :=
  headers <- buildHeaders p ;;
  let req := {| req_method := or_string (method p) (u "GET");
                req_url := url p;
                req_params := (or_string (paramKey p) (u "url"), videoUrl);
                req_headers := headers;
                req_timeout := or_number (timeout p) 15000 |} in
  data <- axios_request req ;;
  normalized <- extract p data ;;
  if has_videoUrl normalized then
    match normalized with
    | Some (Normalized play title author) => ret (Some (Found (name p) play title author))
    | None => ret None
    end
  else ret None.

(** [fetchViaProviders], over the registry it iterates. *)
Fixpoint fetchViaProviders (providers : list provider) (videoUrl : list N)
    : M fetch_result :=
  match providers with
  | [] => ret AllFailed
  | p :: rest =>
      r <- try_catch (attempt p videoUrl) (fun _ => ret None) ;;
      match r with
      | Some result => ret result
      | None => fetchViaProviders rest videoUrl
      end
  end.

End Orchestrator.

(** ** Link validator: the regular expression

    The fragment of the pattern language [TIKTOK_REGEX] is written in:
    pattern characters, the class [[^\s]], sequence, the greedy [?] and the
    greedy [+] over a single character matcher. Capture groups only matter
    for [match[1..3]], which the program never reads. *)

Inductive atom : Type :=
  | Lit (c : N)          (* a pattern character, matched under the [i] flag *)
  | NotSpace.            (* [[^\s]] *)

Inductive regex : Type :=
  | Eps
  | Atom (a : atom)
  | Cat (r1 r2 : regex)
  | Opt (r : regex)
  | Plus (a : atom).

(** [\s]: WhiteSpace and LineTerminator code units. *)
Definition is_space (c : N) : bool :=
  bool_decide (c ∈ [9; 10; 11; 12; 13; 32; 160; 5760; 8232; 8233; 8239; 8287; 12288; 65279]%N)
  || ((8192 <=? c) && (c <=? 8202))%N.

Definition upper_ascii (c : N) : N :=
  if ((97 <=? c) && (c <=? 122))%N then (c - 32)%N else c.

Definition lower_ascii (c : N) : N :=
  if ((65 <=? c) && (c <=? 90))%N then (c + 32)%N else c.

(** One code unit against one matcher. Without the [u] flag, Canonicalize
    never maps a code unit above 127 to one below 128, so an ASCII pattern
    character matches its two ASCII cases only (every pattern character of
    [TIKTOK_REGEX] is ASCII); no code unit upper-cases to a white-space one. *)
Definition atom_matches (a : atom) (c : N) : bool :=
  match a with
  | Lit p => (c <? 128)%N && (upper_ascii c =? upper_ascii p)%N
  | NotSpace => negb (is_space c)
  end.

Fixpoint plus_exec (a : atom) (s : list N) : list (list N) :=
  match s with
  | c :: s' => if atom_matches a c then plus_exec a s' ++ [s'] else []
  | [] => []
  end.

(** The backtracking matcher: the inputs left after each way of matching
    [r] at the head of [s], in the order backtracking tries them. *)
Fixpoint exec (r : regex) (s : list N) : list (list N) :=
  match r with
  | Eps => [s]
  | Atom a =>
      match s with
      | c :: s' => if atom_matches a c then [s'] else []
      | [] => []
      end
  | Cat r1 r2 => flat_map (exec r2) (exec r1 s)
  | Opt r => exec r s ++ [s]
  | Plus a => plus_exec a s
  end.

(** RegExpBuiltinExec without [g] or [y]: the first start index at which
    the matcher succeeds, and [match[0]] there. *)
Fixpoint regex_search (r : regex) (s : list N) (index : nat) : option (nat * list N) :=
  match exec r s with
  | rest :: _ => Some (index, take (length s - length rest) s)
  | [] =>
      match s with
      | _ :: s' => regex_search r s' (S index)
      | [] => None
      end
  end.

(** [re.test(text)] *)
Definition RegExp_test (r : regex) (text : list N) : bool :=
  match regex_search r text 0 with Some _ => true | None => false end.

(** [text.match(re)], as far as [match[0]]; [None] is [null]. *)
Definition String_match (text : list N) (r : regex) : option (list N) :=
  snd <$> regex_search r text 0.

Definition chars (s : String.string) : regex :=
  foldr (fun c r => Cat (Atom (Lit c)) r) Eps (u s).
Arguments chars s%_string.

(** [/https?:\/\/(www\.)?(m\.)?(vm\.)?tiktok\.com\/[^\s]+/i] *)
Definition TIKTOK_REGEX : regex :=
  Cat (chars "http") (Cat (Opt (chars "s")) (Cat (chars "://")
  (Cat (Opt (chars "www.")) (Cat (Opt (chars "m.")) (Cat (Opt (chars "vm."))
  (Cat (chars "tiktok.com/") (Plus NotSpace))))))).

Definition ALLOWED_DOMAINS : list (list N) :=
  [u "tiktok.com"; u "www.tiktok.com"; u "m.tiktok.com"; u "vm.tiktok.com"].

(** The strings a pattern denotes, independently of the matcher. *)
Inductive matches : regex -> list N -> Prop :=
  | matches_eps : matches Eps []
  | matches_atom a c : atom_matches a c = true -> matches (Atom a) [c]
  | matches_cat r1 r2 s1 s2 :
      matches r1 s1 -> matches r2 s2 -> matches (Cat r1 r2) (s1 ++ s2)
  | matches_opt_some r s : matches r s -> matches (Opt r) s
  | matches_opt_none r : matches (Opt r) []
  | matches_plus_one a c : atom_matches a c = true -> matches (Plus a) [c]
  | matches_plus_more a c s :
      atom_matches a c = true -> matches (Plus a) s -> matches (Plus a) (c :: s).

(** ** Link validator: [new URL(...)]

    The URL class belongs to the platform. Its parser is followed here for
    the inputs on which its answer is plain: no scheme (a TypeError, as
    there is no base), and an [http] or [https] URL whose authority is made
    of ASCII letters and dots (the host is that authority in lower case) or
    is empty (a TypeError). On every other input the answer is left to
    [URL_beyond], about which nothing is assumed. *)

Definition is_c0_or_space (c : N) : bool := (c <=? 32)%N.
Definition is_tab_or_newline (c : N) : bool := ((c =? 9) || (c =? 10) || (c =? 13))%N.
Definition is_alpha (c : N) : bool :=
  let l := lower_ascii c in ((97 <=? l) && (l <=? 122))%N.
Definition is_digit (c : N) : bool := ((48 <=? c) && (c <=? 57))%N.
(** ASCII alphanumerics, [+], [-], [.] *)
Definition is_scheme_char (c : N) : bool :=
  is_alpha c || is_digit c || ((c =? 43) || (c =? 45) || (c =? 46))%N.
(** [/] and [\] *)
Definition is_slash (c : N) : bool := ((c =? 47) || (c =? 92))%N.
(** [/], [\], [?], [#]: the end of the authority of a special URL. *)
Definition ends_authority (c : N) : bool :=
  ((c =? 47) || (c =? 92) || (c =? 63) || (c =? 35))%N.
Definition is_alpha_or_dot (c : N) : bool := is_alpha c || (c =? 46)%N.

Fixpoint drop_while (f : N -> bool) (s : list N) : list N :=
  match s with
  | c :: s' => if f c then drop_while f s' else s
  | [] => []
  end.

Fixpoint take_while (f : N -> bool) (s : list N) : list N :=
  match s with
  | c :: s' => if f c then c :: take_while f s' else []
  | [] => []
  end.

(** Leading and trailing C0 controls and spaces are removed. *)
Definition strip (s : list N) : list N :=
  reverse (drop_while is_c0_or_space (reverse (drop_while is_c0_or_space s))).

(** Scheme state: up to the colon, in lower case. *)
Fixpoint scheme_state (s : list N) : option (list N * list N) :=
  match s with
  | c :: s' =>
      if (c =? 58)%N then Some ([], s')
      else if is_scheme_char c then
        '(scheme, rest) ← scheme_state s'; Some (lower_ascii c :: scheme, rest)
      else None
  | [] => None
  end.

(** Scheme start state. *)
Definition scheme_start_state (s : list N) : option (list N * list N) :=
  match s with
  | c :: _ => if is_alpha c then scheme_state s else None
  | [] => None
  end.

(** [s.toLowerCase()], on the ASCII strings host names are. *)
Definition toLowerCase (s : list N) : list N := map lower_ascii s.

Section Validator.

Variable URL_beyond : list N -> option (list N).

(** [new URL(input).hostname]; [None] when the constructor throws. *)
Definition URL_hostname (input : list N) : option (list N) :=
  let cleaned := List.filter (fun c => negb (is_tab_or_newline c)) (strip input) in
  match scheme_start_state cleaned with
  | None => None
  | Some (scheme, rest) =>
      if bool_decide (scheme ∈ [u "http"; u "https"]) then
        let authority := take_while (fun c => negb (ends_authority c))
                                    (drop_while is_slash rest) in
        match authority with
        | [] => None
        | _ :: _ =>
            if forallb is_alpha_or_dot authority then Some (map lower_ascii authority)
            else URL_beyond input
        end
      else URL_beyond input
  end.

(** [isTikTokUrl] *)
Definition isTikTokUrl (text : list N) : bool :=
  if negb (RegExp_test TIKTOK_REGEX text) then false
  else
    match String_match text TIKTOK_REGEX with
    | None => false
    | Some match0 =>
        match URL_hostname match0 with
        | Some hostname => bool_decide (toLowerCase hostname ∈ ALLOWED_DOMAINS)
        | None => false
        end
    end.

End Validator.

(** The payload of the end-to-end example. *)
Definition payload_nested : value :=
  VObj {[ u "data" := VObj (<[ u "play" := VStr (u "http://x/video.mp4") ]>
                            (<[ u "title" := VStr (u "T") ]>
                            {[ u "author" := VObj {[ u "nickname" := VStr (u "A") ]} ]})) ]}.

(** The request [fetchViaProviders] builds for a descriptor, given the key
    its headers drew. *)
Definition request_of (p : provider) (host : list N) (videoUrl : list N)
    (key : option (list N)) : request :=
  {| req_method := or_string (method p) (u "GET");
     req_url := url p;
     req_params := (or_string (paramKey p) (u "url"), videoUrl);
     req_headers := {| x_rapidapi_key := key; x_rapidapi_host := host |};
     req_timeout := or_number (timeout p) 15000 |}.

(** The credential the rotator hands out at cursor [i]. *)
Definition key_at (keys : list (list N)) (i : nat) : option (list N) :=
  keys !! (i mod length keys).

(** ** Vocabulary of the statements *)

(** A descriptor whose [extract] returns [null] on every payload. *)
Definition null_provider : provider :=
  {| name := u "Null";
     url := u "https://null.example/";
     buildHeaders := rapidapi_headers (u "null.example");
     extract := fun _ => ret None;
     method := None;
     paramKey := None;
     timeout := None |}.

(** A descriptor of the kind the registry holds: headers from the rotator,
    an [extract] that returns without touching the state. *)
Definition rotating_pure (p : provider) : Prop :=
  (exists host, buildHeaders p = rapidapi_headers host)
  /\ forall data s, exists r, extract p data s = (Normal r, s).

(** The effect of a call on the state, in terms of the number of
    descriptors it attempted. *)
Definition call_effect (registry : list provider) (s s' : state) (attempted : nat) : Prop :=
  attempted <= length registry
  /\ RAPIDAPI_KEYS s' = RAPIDAPI_KEYS s
  /\ keyIndex s' = keyIndex s + attempted
  /\ exists issued,
       sent s' = sent s ++ issued
       /\ Forall2 (fun p req => req_url req = url p) (take attempted registry) issued
       /\ forall i req, issued !! i = Some req ->
            x_rapidapi_key (req_headers req) = key_at (RAPIDAPI_KEYS s) (keyIndex s + i).

(** A first occurrence: a substring the pattern denotes such that no such
    substring starts further left. *)
Definition first_occurrence (r : regex) (text pre m post : list N) : Prop :=
  text = pre ++ m ++ post
  /\ matches r m
  /\ forall pre' m' post',
       text = pre' ++ m' ++ post' -> matches r m' -> length pre <= length pre'.

(** A pattern character against a code unit, under the [i] flag. *)
Definition ci (p c : N) : Prop := atom_matches (Lit p) c = true.

Definition is_lower (p : N) : bool := ((97 <=? p) && (p <=? 122))%N.
Definition is_lower_or_dot (p : N) : bool := is_lower p || (p =? 46)%N.

(** The shape of a link: a scheme of letters, [://], a host of letters and
    dots, [/], and the rest. *)
Definition link_shape (m sch host tail : list N) : Prop :=
  m = sch ++ u "://" ++ host ++ 47%N :: tail
  /\ sch <> [] /\ forallb is_alpha sch = true
  /\ map lower_ascii sch ∈ [u "http"; u "https"]
  /\ host <> [] /\ forallb is_alpha_or_dot host = true.

(** The parsed host of [m] is on the allow-list. *)
Definition allowed_host (URL_beyond : list N -> option (list N)) (m : list N) : Prop :=
  exists hostname,
    URL_hostname URL_beyond m = Some hostname /\ toLowerCase hostname ∈ ALLOWED_DOMAINS.

(** The text has a substring that the pattern denotes and whose parsed host
    is on the allow-list. *)
Definition contains_allowed_link (URL_beyond : list N -> option (list N))
    (text : list N) : Prop :=
  exists pre m post,
    text = pre ++ m ++ post /\ matches TIKTOK_REGEX m /\ allowed_host URL_beyond m.

(** The first truthy candidate, or the fallback. *)
Fixpoint first_truthy (candidates : list value) (fallback : value) : value :=
  match candidates with
  | v :: rest => if truthy v then v else first_truthy rest fallback
  | [] => fallback
  end.

(** The defaults in the words of the specification, at one payload: the
    title is the payload's title when one is there and ["TikTok Video"]
    otherwise, the author is the payload's author nickname when one is there
    and ["Unknown"] otherwise ("there" read as truthy, the reading kindest to
    the code). *)
Definition defaults_as_stated (extract_fn : value -> option normalized) (data : value) : Prop :=
  forall tuple, extract_fn data = Some tuple ->
    title tuple = first_truthy [data?."data"?."title"] (VStr (u "TikTok Video"))
    /\ author tuple = first_truthy [data?."data"?."author"?."nickname"] (VStr (u "Unknown")).

(** [{data: {play: "http://x/v.mp4", title: "T"}, author: "Bob"}]: a payload
    with no nickname anywhere. *)
Definition payload_author_only : value :=
  VObj (<[ u "data" := VObj (<[ u "play" := VStr (u "http://x/v.mp4") ]>
                             {[ u "title" := VStr (u "T") ]}) ]>
        {[ u "author" := VStr (u "Bob") ]}).

(** * Startup configuration *)

(** [s.split(sep)] for a one-character separator: the pieces between the
    separators, at least one. *)
Fixpoint split_on (sep : N) (s : list N) : list (list N) :=
  match s with
  | [] => [[]]
  | c :: s' =>
      if (c =? sep)%N then [] :: split_on sep s'
      else
        match split_on sep s' with
        | piece :: pieces => (c :: piece) :: pieces
        | [] => [[c]]
        end
  end.

(** [s.trim()]: white space and line terminators (the code units of [\s])
    are removed at both ends. *)
Definition trim (s : list N) : list N :=
  reverse (drop_while is_space (reverse (drop_while is_space s))).

(** [Boolean(k)] for a string. *)
Definition nonempty (k : list N) : bool :=
  match k with [] => false | _ :: _ => true end.

(** [(process.env.RAPIDAPI_KEYS || '').split(',').map((k) => k.trim()).filter(Boolean)];
    [None] is an unset variable. *)
Definition parse_keys (env : option (list N)) : list (list N) :=
  List.filter nonempty (map trim (split_on 44 (default [] env))).

(** The three checks the module makes when it is loaded, in their order. *)
Inductive startup_error : Type :=
  | BOT_TOKEN_missing
  | WEBHOOK_URL_missing
  | RAPIDAPI_KEYS_missing.

(** The module body up to [let keyIndex = 0]: the error thrown, or the state
    the rotator starts in. [!x] holds of an unset and of an empty variable. *)
Definition startup (BOT_TOKEN WEBHOOK_URL RAPIDAPI_KEYS_env : option (list N))
    : startup_error + state :=
  if negb (nonempty (default [] BOT_TOKEN)) then inl BOT_TOKEN_missing
  else if negb (nonempty (default [] WEBHOOK_URL)) then inl WEBHOOK_URL_missing
  else
    let keys := parse_keys RAPIDAPI_KEYS_env in
    if (length keys =? 0)%nat then inl RAPIDAPI_KEYS_missing
    else inr (initial keys).

(** [keys.join(',')] *)
Fixpoint join_comma (keys : list (list N)) : list N :=
  match keys with
  | [] => []
  | [k] => k
  | k :: rest => k ++ 44%N :: join_comma rest
  end.

(** A key as the pool holds it: it starts and ends with a code unit that is
    not white space (so it is not empty), and holds no comma. *)
Definition clean_key (k : list N) : Prop :=
  (exists c, head k = Some c /\ is_space c = false)
  /\ (exists c, last k = Some c /\ is_space c = false)
  /\ (44%N ∉ k).

(** A piece of the variable that holds key [k]: the key with white space
    around it. *)
Definition padded_key (piece k : list N) : Prop :=
  exists l r, piece = l ++ k ++ r
              /\ forallb is_space l = true /\ forallb is_space r = true.

(** A request of the shape both descriptors of the registry produce. *)
Definition rapidapi_request (endpoint host videoUrl : list N) (key : option (list N))
    : request :=
  {| req_method := u "GET";
     req_url := endpoint;
     req_params := (u "url", videoUrl);
     req_headers := {| x_rapidapi_key := key; x_rapidapi_host := host |};
     req_timeout := 15000 |}.

(** The requests of one call, when both descriptors are attempted. *)
Definition both_requests (videoUrl : list N) (s : state) : list request :=
  [rapidapi_request (u "https://tiktok-video-no-watermark2.p.rapidapi.com/")
     (u "tiktok-video-no-watermark2.p.rapidapi.com") videoUrl
     (key_at (RAPIDAPI_KEYS s) (keyIndex s));
   rapidapi_request (u "https://tiktok-video-no-watermark.p.rapidapi.com/")
     (u "tiktok-video-no-watermark.p.rapidapi.com") videoUrl
     (key_at (RAPIDAPI_KEYS s) (keyIndex s + 1))].

(** What an attempt of a descriptor yields for the loop, when the descriptor
    draws from the rotator and extracts with the pure function [f]: the
    result to return, if any. *)
Definition attempt_yield (network : list request -> request -> option value)
    (p : provider) (f : value -> option normalized) (host v : list N) (s : state)
    : option fetch_result :=
  match network (sent s) (request_of p host v (key_at (RAPIDAPI_KEYS s) (keyIndex s))) with
  | Some data =>
      match f data with
      | Some (Normalized play title author) =>
          if truthy play then Some (Found (name p) play title author) else None
      | None => None
      end
  | None => None
  end.

(** The credentials a list of requests carries. *)
Definition keys_of (requests : list request) : list (option (list N)) :=
  map (fun req => x_rapidapi_key (req_headers req)) requests.

(** Calls of [fetchViaProviders] one after the other, each with the network
    it meets and its link; the state after the last. *)
Fixpoint fetch_in_sequence
    (calls : list ((list request -> request -> option value) * list N)) (s : state) : state :=
  match calls with
  | [] => s
  | (network, v) :: rest =>
      fetch_in_sequence rest (snd (fetchViaProviders network API_PROVIDERS v s))
  end.

(** The eight host names the pattern lets through: each optional group
    present or not. *)
Definition link_hosts : list (list N) :=
  [u "tiktok.com"; u "www.tiktok.com"; u "m.tiktok.com"; u "vm.tiktok.com";
   u "www.m.tiktok.com"; u "www.vm.tiktok.com"; u "m.vm.tiktok.com";
   u "www.m.vm.tiktok.com"].

(** An [http] or [https] link to [host] with a path of at least one code
    unit and no white space: scheme and host in any letter case. *)
Definition link_to (host : list N) (link : list N) : Prop :=
  exists sch raw_host path,
    link = sch ++ u "://" ++ raw_host ++ 47%N :: path
    /\ toLowerCase sch ∈ [u "http"; u "https"]
    /\ toLowerCase raw_host = host
    /\ path <> [] /\ forallb (fun c => negb (is_space c)) path = true.

(** * The message handler

    What the bot does with the messaging platform through Telegraf: the
    calls it makes ([ctx.reply] is [sendMessage] to the chat of the update,
    [ctx.replyWithVideo] is [sendVideo]), the delays it asks for, and, in
    the same log, the provider requests of [fetchViaProviders]. *)

Inductive button : Type :=
  | UrlButton (text url : list N)
  | CallbackButton (text data : list N).

Inductive api_call : Type :=
  | sendMessage (chat_id : N) (text : list N) (parse_mode : option (list N))
      (reply_markup : option (list (list button)))
  | editMessageText (chat_id message_id : N) (text : list N) (parse_mode : option (list N))
  | sendVideo (chat_id : N) (video_url : value) (caption : list N)
      (parse_mode : option (list N)) (supports_streaming : bool)
      (reply_markup : option (list (list button))).

Inductive effect : Type :=
  | Api (call : api_call)
  | Sleep (ms : N)
  | Http (req : request).

Record bot : Type := Bot {
  process : state;
  log : list effect;
}.

Inductive bot_error : Type :=
  | TelegramError
  | Uncaught (e : error).

(** How an async function settles. *)
Inductive settled (A : Type) : Type :=
  | Fulfilled (a : A)
  | Rejected (e : bot_error).
Arguments Fulfilled {A} a.
Arguments Rejected {A} e.

Definition B (A : Type) : Type := bot -> settled A * bot.

Definition bret {A} (a : A) : B A := fun b => (Fulfilled a, b).

Definition bbind {A C} (m : B A) (k : A -> B C) : B C :=
  fun b => match m b with
           | (Fulfilled a, b') => k a b'
           | (Rejected e, b') => (Rejected e, b')
           end.

(** [try { body } catch (err) { handler }], and [promise.catch(handler)]. *)
Definition bcatch {A} (body : B A) (handler : bot_error -> B A) : B A :=
  fun b => match body b with
           | (Fulfilled a, b') => (Fulfilled a, b')
           | (Rejected e, b') => handler e b'
           end.

Notation "x <~ m ;; k" := (bbind m (fun x => k))
  (at level 100, m at next level, right associativity) : js_scope.
Notation "m ;;; k" := (bbind m (fun _ => k))
  (at level 100, right associativity) : js_scope.

(** [await new Promise((r) => setTimeout(r, ms))] *)
Definition sleep (ms : N) : B unit :=
  fun b => (Fulfilled tt, {| process := process b; log := log b ++ [Sleep ms] |}).

Definition hourglass : list N := [9203%N].
Definition ellipsis : list N := [8230%N].
Definition light : N := 9617%N.
Definition dark : N := 9619%N.
Definition warning_sign : list N := [9888; 65039]%N.
Definition cross_mark : list N := [10060%N].
Definition check_mark : list N := [9989%N].
Definition clapper : list N := [55356; 57260]%N.
Definition bust : list N := [55357; 56420]%N.
Definition satellite : list N := [55357; 57072]%N.
Definition link_sign : list N := [55357; 56599]%N.
Definition back_arrow : list N := [8617; 65039]%N.

Definition frames : list (list N) :=
  [hourglass ++ u " Fetching your video" ++ ellipsis ++ u " " ++ [light; light; light; light];
   hourglass ++ u " Fetching your video" ++ ellipsis ++ u " " ++ [dark; light; light; light];
   hourglass ++ u " Fetching your video" ++ ellipsis ++ u " " ++ [dark; dark; light; light];
   hourglass ++ u " Fetching your video" ++ ellipsis ++ u " " ++ [dark; dark; dark; light];
   hourglass ++ u " Fetching your video" ++ ellipsis ++ u " " ++ [dark; dark; dark; dark]].

(** [mainKeyboard()], as the [reply_markup.inline_keyboard] it spreads into
    the extra of a call. *)
Definition mainKeyboard : list (list button) :=
  [[UrlButton (link_sign ++ u " Share Bot")
      (u "https://t.me/share/url?url=TikTok%20Downloader%20Bot")];
   [CallbackButton (back_arrow ++ u " Try Another") (u "TRY_ANOTHER")]].

(** [lines.join('\n')] *)
Fixpoint join_lines (lines : list (list N)) : list N :=
  match lines with
  | [] => []
  | [l] => l
  | l :: rest => l ++ 10%N :: join_lines rest
  end.

(** What the update carries: [ctx.message?.text] and [ctx.chat.id]. *)
Record context : Type := Context {
  message_text : option (list N);
  chat_id_of : N;
}.

Section Bot.

Variable network : list request -> request -> option value.

(** What the platform answers to a call, given the log so far: [None] when
    the call rejects, the [message_id] of the message sent or edited when it
    resolves. *)
Variable telegram : list effect -> api_call -> option N.

Variable URL_beyond : list N -> option (list N).

(** The string a template literal makes of a value that is not a string. *)
Variable ToString_other : value -> list N.

Definition template (v : value) : list N :=
  match v with
  | VStr s => s
  | _ => ToString_other v
  end.

Definition call (c : api_call) : B N :=
  fun b =>
    let b' := {| process := process b; log := log b ++ [Api c] |} in
    match telegram (log b) c with
    | Some message_id => (Fulfilled message_id, b')
    | None => (Rejected TelegramError, b')
    end.

(** [await fetchViaProviders(videoUrl)], its requests entered in the log. *)
Definition fetch (videoUrl : list N) : B fetch_result :=
  fun b =>
    let '(r, s') := fetchViaProviders network API_PROVIDERS videoUrl (process b) in
    let b' := {| process := s';
                 log := log b ++ map Http (drop (length (sent (process b))) (sent s')) |} in
    match r with
    | Normal result => (Fulfilled result, b')
    | Throw e => (Rejected (Uncaught e), b')
    end.

(** The loop of [simulatedProgress], over the frames left. *)
Fixpoint show_frames (left : list (list N)) (chatId messageId : N) : B unit :=
  match left with
  | [] => bret tt
  | frame :: rest =>
      bcatch (call (editMessageText chatId messageId (u "*" ++ frame ++ u "*")
                      (Some (u "Markdown"))) ;;; bret tt)
             (fun _ => bret tt) ;;;
      sleep 400 ;;;
      show_frames rest chatId messageId
  end.

(** [simulatedProgress(bot, chatId, messageId)] *)
Definition simulatedProgress (chatId messageId : N) : B unit :=
  show_frames frames chatId messageId.

(** The handler of [bot.on('text', ...)]. *)
Definition on_text (ctx : context) : B unit :=
  let text := trim (or_string (message_text ctx) []) in
  if negb (isTikTokUrl URL_beyond text) then
    call (sendMessage (chat_id_of ctx)
            (warning_sign ++ u " Please send a valid *tiktok.com* link.")
            (Some (u "Markdown")) None) ;;;
    bret tt
  else
    loading <~ call (sendMessage (chat_id_of ctx)
                       (hourglass ++ u " *Fetching your video" ++ ellipsis ++ u "*")
                       (Some (u "Markdown")) None) ;;
    bcatch
      (simulatedProgress (chat_id_of ctx) loading ;;;
       result <~ fetch text ;;
       match result with
       | AllFailed =>
           call (editMessageText (chat_id_of ctx) loading
                   (cross_mark ++ u " All providers failed.") None) ;;;
           bret tt
       | Found provider videoUrl title author =>
           call (editMessageText (chat_id_of ctx) loading
                   (check_mark ++ u " Sending your video" ++ ellipsis) None) ;;;
           let caption :=
             join_lines [clapper ++ u " *" ++ template title ++ u "*";
                         bust ++ u " Author: " ++ template author;
                         satellite ++ u " Provider: " ++ provider] in
           call (sendVideo (chat_id_of ctx) videoUrl caption (Some (u "Markdown")) true
                   (Some mainKeyboard)) ;;;
           bret tt
       end)
      (fun _ =>
         call (editMessageText (chat_id_of ctx) loading
                 (cross_mark ++ u " Error. Try again.") None) ;;;
         bret tt).

End Bot.

(** ** The calls the handler makes *)

Definition warning_call (chat : N) : api_call :=
  sendMessage chat (warning_sign ++ u " Please send a valid *tiktok.com* link.")
    (Some (u "Markdown")) None.

Definition loading_call (chat : N) : api_call :=
  sendMessage chat (hourglass ++ u " *Fetching your video" ++ ellipsis ++ u "*")
    (Some (u "Markdown")) None.

Definition failed_call (chat loading : N) : api_call :=
  editMessageText chat loading (cross_mark ++ u " All providers failed.") None.

Definition sending_call (chat loading : N) : api_call :=
  editMessageText chat loading (check_mark ++ u " Sending your video" ++ ellipsis) None.

Definition error_call (chat loading : N) : api_call :=
  editMessageText chat loading (cross_mark ++ u " Error. Try again.") None.

(** The effects of the progress animation: each frame, then its pause. *)
Definition progress_effects (chat loading : N) : list effect :=
  flat_map (fun frame =>
              [Api (editMessageText chat loading (u "*" ++ frame ++ u "*")
                      (Some (u "Markdown")));
               Sleep 400])
           frames.

(** The pauses a list of effects asks for, in milliseconds. *)
Fixpoint total_sleep (effects : list effect) : N :=
  match effects with
  | [] => 0
  | Sleep ms :: rest => ms + total_sleep rest
  | _ :: rest => total_sleep rest
  end.

Definition is_sendVideo (e : effect) : bool :=
  match e with Api (sendVideo _ _ _ _ _ _) => true | _ => false end.

Definition is_Http (e : effect) : bool :=
  match e with Http _ => true | _ => false end.

(** The video message for a result. *)
Definition video_call (ToString_other : value -> list N) (chat : N)
    (provider : list N) (videoUrl title author : value) : api_call :=
  sendVideo chat videoUrl
    (join_lines [clapper ++ u " *" ++ template ToString_other title ++ u "*";
                 bust ++ u " Author: " ++ template ToString_other author;
                 satellite ++ u " Provider: " ++ provider])
    (Some (u "Markdown")) true (Some mainKeyboard).

(** How the handler closes after the fetch, given its result and the log
    [l] at that point: the calls it makes and how it settles. *)
Inductive closes (telegram : list effect -> api_call -> option N)
    (ToString_other : value -> list N) (chat loading : N) (l : list effect)
    : fetch_result -> list api_call -> settled unit -> Prop :=
  | closes_failed id :
      telegram l (failed_call chat loading) = Some id ->
      closes telegram ToString_other chat loading l AllFailed
        [failed_call chat loading] (Fulfilled tt)
  | closes_failed_error :
      telegram l (failed_call chat loading) = None ->
      closes telegram ToString_other chat loading l AllFailed
        [failed_call chat loading; error_call chat loading]
        (match telegram (l ++ [Api (failed_call chat loading)]) (error_call chat loading) with
         | Some _ => Fulfilled tt
         | None => Rejected TelegramError
         end)
  | closes_sending_error provider videoUrl title author :
      telegram l (sending_call chat loading) = None ->
      closes telegram ToString_other chat loading l (Found provider videoUrl title author)
        [sending_call chat loading; error_call chat loading]
        (match telegram (l ++ [Api (sending_call chat loading)]) (error_call chat loading) with
         | Some _ => Fulfilled tt
         | None => Rejected TelegramError
         end)
  | closes_video provider videoUrl title author id id' :
      telegram l (sending_call chat loading) = Some id ->
      telegram (l ++ [Api (sending_call chat loading)])
        (video_call ToString_other chat provider videoUrl title author) = Some id' ->
      closes telegram ToString_other chat loading l (Found provider videoUrl title author)
        [sending_call chat loading;
         video_call ToString_other chat provider videoUrl title author]
        (Fulfilled tt)
  | closes_video_error provider videoUrl title author id :
      telegram l (sending_call chat loading) = Some id ->
      telegram (l ++ [Api (sending_call chat loading)])
        (video_call ToString_other chat provider videoUrl title author) = None ->
      closes telegram ToString_other chat loading l (Found provider videoUrl title author)
        [sending_call chat loading;
         video_call ToString_other chat provider videoUrl title author;
         error_call chat loading]
        (match telegram ((l ++ [Api (sending_call chat loading)])
                         ++ [Api (video_call ToString_other chat provider videoUrl
                                    title author)])
                 (error_call chat loading) with
         | Some _ => Fulfilled tt
         | None => Rejected TelegramError
         end).

(** * Key rotator *)

Lemma getNextKey_run s :
  getNextKey s =
  (Normal (key_at (RAPIDAPI_KEYS s) (keyIndex s)),
   {| RAPIDAPI_KEYS := RAPIDAPI_KEYS s; keyIndex := keyIndex s + 1; sent := sent s |}).
Proof. reflexivity. Qed.

Lemma getNextKey_times_run n : forall s,
  getNextKey_times n s =
  (Normal (map (fun k => key_at (RAPIDAPI_KEYS s) (keyIndex s + k)) (seq 0 n)),
   {| RAPIDAPI_KEYS := RAPIDAPI_KEYS s; keyIndex := keyIndex s + n; sent := sent s |}).
Proof.
  induction n as [|n IH]; intros s.
  - cbn. unfold ret. destruct s; cbn. f_equal. f_equal. lia.
  - cbn [getNextKey_times]. unfold bind at 1. rewrite getNextKey_run.
    unfold bind at 1. rewrite IH. cbn [RAPIDAPI_KEYS keyIndex sent]. unfold ret.
    f_equal.
    + f_equal. cbn [seq map]. f_equal.
      * f_equal. lia.
      * rewrite <- seq_shift, map_map. apply map_ext. intros k. f_equal. lia.
    + f_equal. lia.
Qed.

Lemma key_at_lt (keys : list (list N)) i :
  i < length keys -> key_at keys i = keys !! i.
Proof. intros H. unfold key_at. by rewrite Nat.mod_small. Qed.

Lemma key_at_period (keys : list (list N)) i :
  key_at keys (i + length keys) = key_at keys i.
Proof.
  unfold key_at. destruct (length keys) as [|n] eqn:E.
  - destruct keys; [done | discriminate].
  - f_equal. rewrite <- (Nat.mul_1_l (S n)) at 1. by rewrite Nat.Div0.mod_add.
Qed.

Lemma map_key_at_seq (keys : list (list N)) :
  map (key_at keys) (seq 0 (length keys)) = map Some keys.
Proof.
  apply list_eq. intros i. rewrite !list_lookup_fmap.
  destruct (decide (i < length keys)) as [Hlt|Hge].
  - rewrite lookup_seq_lt by done. cbn. rewrite key_at_lt by done.
    destruct (lookup_lt_is_Some_2 keys i Hlt) as [k Hk]. by rewrite Hk.
  - rewrite lookup_seq_ge by lia. by rewrite lookup_ge_None_2 by lia.
Qed.

(** C4. From the initial cursor, [N] calls of the rotator over a pool of
    [N >= 1] keys return the pool, key by key and in order; [N + 1] calls
    return the pool followed by its first key; and in any run of calls the
    key returned by call [k + N] is the key returned by call [k]: the
    sequence has period [N]. No call throws. *)
Theorem getNextKey_round_robin (keys : list (list N)) :
  1 <= length keys ->
  fst (getNextKey_times (length keys) (initial keys)) = Normal (map Some keys)
  /\ fst (getNextKey_times (length keys + 1) (initial keys))
     = Normal (map Some keys ++ [head keys])
  /\ forall n k, k + length keys < n ->
       exists returned,
         fst (getNextKey_times n (initial keys)) = Normal returned
         /\ returned !! (k + length keys) = returned !! k
         /\ returned !! k = Some (keys !! (k mod length keys)).
Proof.
  intros HN. split; [|split].
  - rewrite getNextKey_times_run. cbn [fst initial RAPIDAPI_KEYS keyIndex].
    f_equal. apply map_key_at_seq.
  - rewrite getNextKey_times_run. cbn [fst initial RAPIDAPI_KEYS keyIndex].
    f_equal. rewrite seq_app, map_app. cbn [seq map Nat.add].
    rewrite map_key_at_seq. f_equal. f_equal.
    pose proof (key_at_period keys 0) as Hp. cbn [Nat.add] in Hp.
    rewrite ?Nat.add_0_r, Hp. unfold key_at.
    rewrite Nat.Div0.mod_0_l. by destruct keys.
  - intros n k Hk. rewrite getNextKey_times_run.
    cbn [fst initial RAPIDAPI_KEYS keyIndex Nat.add]. eexists. split; [reflexivity|].
    rewrite !list_lookup_fmap, !lookup_seq_lt by lia. cbn.
    split; [by rewrite key_at_period | reflexivity].
Qed.

Lemma getNextKey_round_robin_witness :
  1 <= length [u "k1"; u "k2"; u "k3"]
  /\ fst (getNextKey_times 4 (initial [u "k1"; u "k2"; u "k3"]))
     = Normal [Some (u "k1"); Some (u "k2"); Some (u "k3"); Some (u "k1")].
Proof.
  split; [cbn; lia|].
  exact (proj1 (proj2 (getNextKey_round_robin [u "k1"; u "k2"; u "k3"] ltac:(cbn; lia)))).
Defined.

(** * Fetch orchestrator *)

Section OrchestratorFacts.

Variable network : list request -> request -> option value.

(** One attempt of a descriptor whose headers draw from the rotator: the
    cursor advances by one, one request is issued, and only then the
    answer is looked at. *)
Lemma attempt_run p host v s :
  buildHeaders p = rapidapi_headers host ->
  attempt network p v s =
    let req := request_of p host v (key_at (RAPIDAPI_KEYS s) (keyIndex s)) in
    let s1 := {| RAPIDAPI_KEYS := RAPIDAPI_KEYS s; keyIndex := keyIndex s + 1;
                 sent := sent s ++ [req] |} in
    match network (sent s) req with
    | None => (Throw AxiosError, s1)
    | Some data =>
        match extract p data s1 with
        | (Normal (Some (Normalized play title author)), s2) =>
            (Normal (if truthy play then Some (Found (name p) play title author) else None), s2)
        | (Normal None, s2) => (Normal None, s2)
        | (Throw e, s2) => (Throw e, s2)
        end
    end.
Proof.
  intros Hh. unfold attempt, bind at 1. rewrite Hh.
  unfold rapidapi_headers, bind at 1. rewrite getNextKey_run.
  unfold ret at 1. unfold bind at 1, axios_request.
  cbn [RAPIDAPI_KEYS keyIndex sent]. fold (request_of p host v).
  destruct (network _ _) as [data|]; [|reflexivity].
  unfold bind. destruct (extract p data _) as [[[[play title author]|]|e] s2];
    cbn [has_videoUrl videoUrl]; try reflexivity.
  by destruct (truthy play).
Qed.

(** The loop body: the [catch] turns a throw into "try the next one". *)
Lemma fetchViaProviders_cons p rest v s :
  fetchViaProviders network (p :: rest) v s =
    match attempt network p v s with
    | (Normal (Some result), s') => (Normal result, s')
    | (Normal None, s') | (Throw _, s') => fetchViaProviders network rest v s'
    end.
Proof.
  cbn [fetchViaProviders]. unfold bind at 1, try_catch.
  by destruct (attempt network p v s) as [[[result|]|e] s'].
Qed.

(** [fetchViaProviders] returns, whatever the network and the descriptors
    do. *)
Lemma fetchViaProviders_returns registry v : forall s,
  exists result s', fetchViaProviders network registry v s = (Normal result, s').
Proof.
  induction registry as [|p rest IH]; intros s.
  - by exists AllFailed, s.
  - rewrite fetchViaProviders_cons.
    destruct (attempt network p v s) as [[[result|]|e] s']; eauto.
Qed.

(** An attempt whose HTTP call rejects throws, or threw before the call. *)
Lemma attempt_rejected p v s :
  (forall history req, network history req = None) ->
  exists e s', attempt network p v s = (Throw e, s').
Proof.
  intros Hnet. unfold attempt, bind at 1.
  destruct (buildHeaders p s) as [[h|e] s1]; [|eauto].
  unfold bind at 1, axios_request. rewrite Hnet. eauto.
Qed.

End OrchestratorFacts.

(** C3. When every HTTP call rejects, [fetchViaProviders] returns
    [{ok: false}] and does not throw, for every registry; and when the
    descriptors draw their key from the rotator, as those of the program do,
    the requests issued are one per descriptor, in registry order: every
    provider was tried before the result was produced. *)
Theorem fetchViaProviders_all_throw network registry v s :
  (forall history req, network history req = None) ->
  exists s',
    fetchViaProviders network registry v s = (Normal AllFailed, s')
    /\ (Forall (fun p => exists host, buildHeaders p = rapidapi_headers host) registry ->
        exists issued,
          sent s' = sent s ++ issued
          /\ Forall2 (fun p req => req_url req = url p) registry issued).
Proof.
  intros Hnet. revert s. induction registry as [|p rest IH]; intros s.
  - exists s. split; [done|]. intros _. exists []. by rewrite app_nil_r.
  - rewrite fetchViaProviders_cons.
    destruct (attempt_rejected network p v s Hnet) as (e & s1 & Hrun).
    rewrite Hrun. destruct (IH s1) as (s' & Hrest & Hsent).
    exists s'. split; [done|].
    intros Hreg. apply Forall_cons in Hreg as [[host Hhost] Hreg].
    destruct (Hsent Hreg) as (issued & Hissued & Hurls).
    rewrite (attempt_run network p host v s Hhost) in Hrun. cbn zeta in Hrun.
    rewrite Hnet in Hrun.
    injection Hrun as _ <-. cbn [sent] in Hissued.
    eexists (_ :: issued). split.
    + by rewrite Hissued, <- app_assoc.
    + by constructor.
Qed.

Lemma fetchViaProviders_all_throw_witness :
  exists s',
    fetchViaProviders (fun _ _ => None) API_PROVIDERS (u "https://vm.tiktok.com/ZMabc123/")
      (initial [u "k1"]) = (Normal AllFailed, s')
    /\ length (sent s') = 2.
Proof.
  destruct (fetchViaProviders_all_throw (fun _ _ => None) API_PROVIDERS
              (u "https://vm.tiktok.com/ZMabc123/") (initial [u "k1"])
              (fun _ _ => eq_refl)) as (s' & Hrun & Hsent).
  exists s'. split; [exact Hrun|].
  destruct Hsent as (issued & -> & Hurls).
  - repeat constructor; eexists; reflexivity.
  - apply Forall2_length in Hurls. cbn in *. lia.
Defined.

(** C2. In a registry that starts with two descriptors, the first with an
    [extract] that returns [null] on every payload and the second with an
    [extract] that returns a tuple with a non-empty [videoUrl] on the payload
    its HTTP call resolves with, [fetchViaProviders] returns the second
    descriptor's name with the fields of its tuple; the requests issued are
    the first descriptor's and then the second's, and none for any descriptor
    after them. Both descriptors draw their key from the rotator. *)
Theorem fetchViaProviders_second_wins network p1 p2 rest host1 host2 v s data tuple :
  let req1 := request_of p1 host1 v (key_at (RAPIDAPI_KEYS s) (keyIndex s)) in
  let req2 := request_of p2 host2 v (key_at (RAPIDAPI_KEYS s) (keyIndex s + 1)) in
  buildHeaders p1 = rapidapi_headers host1 ->
  buildHeaders p2 = rapidapi_headers host2 ->
  (forall d s1, extract p1 d s1 = (Normal None, s1)) ->
  network (sent s ++ [req1]) req2 = Some data ->
  (forall s2, extract p2 data s2 = (Normal (Some tuple), s2)) ->
  truthy (videoUrl tuple) = true ->
  exists s',
    fetchViaProviders network (p1 :: p2 :: rest) v s
    = (Normal (Found (name p2) (videoUrl tuple) (title tuple) (author tuple)), s')
    /\ sent s' = sent s ++ [req1; req2].
Proof.
  intros req1 req2 Hh1 Hh2 Hnull Hnet Htuple Hvalid.
  rewrite fetchViaProviders_cons, (attempt_run network p1 host1 v s Hh1).
  cbn zeta. fold req1.
  set (s1 := {| RAPIDAPI_KEYS := RAPIDAPI_KEYS s; keyIndex := keyIndex s + 1;
                sent := sent s ++ [req1] |}).
  assert (fetchViaProviders network (p2 :: rest) v s1
          = (Normal (Found (name p2) (videoUrl tuple) (title tuple) (author tuple)),
             {| RAPIDAPI_KEYS := RAPIDAPI_KEYS s; keyIndex := keyIndex s + 1 + 1;
                sent := (sent s ++ [req1]) ++ [req2] |})) as Hsecond.
  { rewrite fetchViaProviders_cons, (attempt_run network p2 host2 v s1 Hh2).
    cbn zeta. cbn [s1 RAPIDAPI_KEYS keyIndex sent]. fold req2.
    rewrite Hnet, Htuple. destruct tuple as [play t a]. cbn in Hvalid |- *.
    by rewrite Hvalid. }
  eexists. split.
  - destruct (network (sent s) req1) as [d|]; [rewrite Hnull|]; exact Hsecond.
  - cbn [sent]. by rewrite <- app_assoc.
Qed.

Lemma extract1_payload_nested :
  extract1 payload_nested
  = Some (Normalized (VStr (u "http://x/video.mp4")) (VStr (u "T")) (VStr (u "A"))).
Proof. vm_compute. reflexivity. Qed.

Lemma fetchViaProviders_second_wins_witness :
  exists s',
    fetchViaProviders (fun _ _ => Some payload_nested) (null_provider :: API_PROVIDERS)
      (u "https://vm.tiktok.com/ZMabc123/") (initial [u "k1"; u "k2"])
    = (Normal (Found (u "RapidAPI-1") (VStr (u "http://x/video.mp4"))
                 (VStr (u "T")) (VStr (u "A"))), s')
    /\ map req_url (sent s')
       = [u "https://null.example/"; u "https://tiktok-video-no-watermark2.p.rapidapi.com/"]
    /\ map (fun r => x_rapidapi_key (req_headers r)) (sent s')
       = [Some (u "k1"); Some (u "k2")].
Proof.
  destruct (fetchViaProviders_second_wins (fun _ _ => Some payload_nested)
              null_provider
              {| name := u "RapidAPI-1";
                 url := u "https://tiktok-video-no-watermark2.p.rapidapi.com/";
                 buildHeaders := rapidapi_headers (u "tiktok-video-no-watermark2.p.rapidapi.com");
                 extract := fun data => ret (extract1 data);
                 method := Some (u "GET");
                 paramKey := Some (u "url");
                 timeout := Some 15000%N |}
              (tail API_PROVIDERS)
              (u "null.example") (u "tiktok-video-no-watermark2.p.rapidapi.com")
              (u "https://vm.tiktok.com/ZMabc123/") (initial [u "k1"; u "k2"])
              payload_nested
              (Normalized (VStr (u "http://x/video.mp4")) (VStr (u "T")) (VStr (u "A")))
              eq_refl eq_refl (fun _ _ => eq_refl) eq_refl
              (fun s2 => f_equal (fun r => (Normal r, s2)) extract1_payload_nested)
              eq_refl) as (s' & Hrun & Hsent).
  exists s'. split; [exact Hrun|]. rewrite Hsent. split; reflexivity.
Defined.

(** C5. For the link [https://vm.tiktok.com/ZMabc123/], when the HTTP call
    of the first descriptor resolves with
    [{data: {play: "http://x/video.mp4", title: "T", author: {nickname: "A"}}}],
    [fetchViaProviders] returns [{ok: true, provider: "RapidAPI-1",
    videoUrl: "http://x/video.mp4", title: "T", author: "A"}]. *)
Theorem fetchViaProviders_end_to_end network s :
  network (sent s)
    {| req_method := u "GET";
       req_url := u "https://tiktok-video-no-watermark2.p.rapidapi.com/";
       req_params := (u "url", u "https://vm.tiktok.com/ZMabc123/");
       req_headers :=
         {| x_rapidapi_key := key_at (RAPIDAPI_KEYS s) (keyIndex s);
            x_rapidapi_host := u "tiktok-video-no-watermark2.p.rapidapi.com" |};
       req_timeout := 15000 |}
  = Some payload_nested ->
  fst (fetchViaProviders network API_PROVIDERS (u "https://vm.tiktok.com/ZMabc123/") s)
  = Normal (Found (u "RapidAPI-1") (VStr (u "http://x/video.mp4")) (VStr (u "T")) (VStr (u "A"))).
Proof.
  intros Hnet. unfold API_PROVIDERS.
  rewrite fetchViaProviders_cons.
  erewrite attempt_run by reflexivity.
  cbn zeta. unfold request_of. cbn [method paramKey timeout url or_string or_number u
    String.list_ascii_of_string map] in *.
  rewrite Hnet. cbn [extract]. unfold ret at 1. rewrite extract1_payload_nested.
  reflexivity.
Qed.

Lemma fetchViaProviders_end_to_end_witness :
  fst (fetchViaProviders (fun _ _ => Some payload_nested) API_PROVIDERS
         (u "https://vm.tiktok.com/ZMabc123/") (initial [u "k1"; u "k2"]))
  = Normal (Found (u "RapidAPI-1") (VStr (u "http://x/video.mp4")) (VStr (u "T")) (VStr (u "A"))).
Proof.
  exact (fetchViaProviders_end_to_end (fun _ _ => Some payload_nested)
           (initial [u "k1"; u "k2"]) eq_refl).
Defined.

(** ** What a call changes *)

Lemma API_PROVIDERS_rotating_pure : Forall rotating_pure API_PROVIDERS.
Proof. repeat constructor; try (eexists; reflexivity); intros; eexists; reflexivity. Qed.

Lemma call_effect_step p registry host v s s' attempted :
  let s1 := {| RAPIDAPI_KEYS := RAPIDAPI_KEYS s; keyIndex := keyIndex s + 1;
               sent := sent s ++ [request_of p host v (key_at (RAPIDAPI_KEYS s) (keyIndex s))] |} in
  call_effect registry s1 s' attempted ->
  call_effect (p :: registry) s s' (S attempted).
Proof.
  intros s1 (Hle & Hkeys & Hidx & issued & Hsent & Hurls & Hkey).
  cbn [s1 RAPIDAPI_KEYS keyIndex sent] in *.
  split; [cbn; lia|]. split; [done|]. split; [lia|].
  eexists (_ :: issued). split; [by rewrite Hsent, <- app_assoc|].
  split; [by constructor|].
  intros [|i] req Hreq; cbn in Hreq.
  - injection Hreq as <-. cbn. by rewrite Nat.add_0_r.
  - rewrite (Hkey i req Hreq). f_equal. lia.
Qed.

Lemma fetchViaProviders_effect network registry v :
  Forall rotating_pure registry ->
  forall s, exists attempted,
    call_effect registry s (snd (fetchViaProviders network registry v s)) attempted.
Proof.
  induction 1 as [|p registry [[host Hhost] Hpure] _ IH]; intros s.
  - exists 0. repeat split; cbn; try lia.
    exists []. rewrite app_nil_r. repeat split; [constructor | by intros i req].
  - rewrite fetchViaProviders_cons, (attempt_run network p host v s Hhost). cbn zeta.
    set (s1 := {| RAPIDAPI_KEYS := RAPIDAPI_KEYS s; keyIndex := keyIndex s + 1;
                  sent := sent s ++ [_] |}).
    assert (call_effect (p :: registry) s s1 1) as Hone.
    { apply (call_effect_step p registry host v s s1 0). fold s1.
      repeat split; cbn; try lia.
      exists []. rewrite app_nil_r, take_0. repeat split; [constructor | by intros i req]. }
    assert (exists attempted, call_effect (p :: registry) s
              (snd (fetchViaProviders network registry v s1)) attempted) as Hnext.
    { destruct (IH s1) as [attempted Hrest]. exists (S attempted).
      by apply (call_effect_step p registry host v). }
    destruct (network (sent s) _) as [data|]; [|exact Hnext].
    destruct (Hpure data s1) as [r ->].
    destruct r as [[play title author]|]; [|exact Hnext].
    destruct (truthy play); [by exists 1 | exact Hnext].
Qed.

(** C7. A call of [fetchViaProviders] leaves the credential pool as it was
    and advances the cursor by the number of descriptors it attempted (at
    most the length of the registry): each attempt issues one request, to
    the descriptors in registry order, carrying the credential the rotator
    holds at the successive cursor values. The registry is a constant of the
    model. A call of [getNextKey] advances the cursor by one and leaves the
    pool as it was, so no operation lowers or resets the cursor. *)
Theorem fetchViaProviders_only_advances_cursor network v s :
  (exists attempted,
     call_effect API_PROVIDERS s (snd (fetchViaProviders network API_PROVIDERS v s)) attempted)
  /\ keyIndex s <= keyIndex (snd (fetchViaProviders network API_PROVIDERS v s))
  /\ keyIndex (snd (getNextKey s)) = keyIndex s + 1
  /\ RAPIDAPI_KEYS (snd (getNextKey s)) = RAPIDAPI_KEYS s.
Proof.
  pose proof (fetchViaProviders_effect network API_PROVIDERS v
                API_PROVIDERS_rotating_pure s) as [attempted Heff].
  split; [by exists attempted|].
  split; [|by rewrite getNextKey_run].
  destruct Heff as (_ & _ & -> & _). lia.
Qed.

(** * Response normalization *)


(** C10. For both descriptors of the registry, a tuple that [extract]
    returns carries, as [videoUrl], the truthy [play] value that passed the
    [if (!play) return null] test; so the orchestrator's test
    [normalized?.videoUrl] fails exactly when [extract] returned [null]. *)
Theorem extract_videoUrl_truthy :
  (forall data tuple, extract1 data = Some tuple ->
     videoUrl tuple = data?."data"?."play" /\ truthy (videoUrl tuple) = true)
  /\ (forall data tuple, extract2 data = Some tuple ->
        videoUrl tuple
        = js_or (js_or data?."data"?."play" data?."data"?."wmplay") data?."play"
        /\ truthy (videoUrl tuple) = true)
  /\ Forall (fun p => forall data s, exists r,
               extract p data s = (Normal r, s)
               /\ (has_videoUrl r = false <-> r = None))
            API_PROVIDERS.
Proof.
  assert (forall data tuple, extract1 data = Some tuple ->
            videoUrl tuple = data?."data"?."play" /\ truthy (videoUrl tuple) = true) as H1.
  { intros data tuple. unfold extract1.
    destruct (truthy _) eqn:Hplay; cbn; [|done]. intros [= <-]. by cbn. }
  assert (forall data tuple, extract2 data = Some tuple ->
            videoUrl tuple
            = js_or (js_or data?."data"?."play" data?."data"?."wmplay") data?."play"
            /\ truthy (videoUrl tuple) = true) as H2.
  { intros data tuple. unfold extract2.
    destruct (truthy _) eqn:Hplay; cbn; [|done]. intros [= <-]. by cbn. }
  split; [exact H1|]. split; [exact H2|].
  repeat constructor; intros data s; eexists; (split; [reflexivity|]); cbn.
  - destruct (extract1 data) as [tuple|] eqn:E; cbn; [|done].
    destruct (H1 data tuple E) as [_ ->]. split; discriminate.
  - destruct (extract2 data) as [tuple|] eqn:E; cbn; [|done].
    destruct (H2 data tuple E) as [_ ->]. split; discriminate.
Qed.

(** * Link validator *)

(** ** The matcher against the strings the pattern denotes *)

Lemma plus_exec_sound a s rest :
  In rest (plus_exec a s) -> exists m, s = m ++ rest /\ matches (Plus a) m.
Proof.
  revert rest. induction s as [|c s IH]; intros rest; cbn; [done|].
  destruct (atom_matches a c) eqn:Hc; [|done].
  intros [Hin|[<-|[]]]%in_app_or.
  - destruct (IH rest Hin) as (m & -> & Hm). exists (c :: m). split; [done|].
    by apply matches_plus_more.
  - exists [c]. split; [done|]. by apply matches_plus_one.
Qed.

Lemma exec_sound r : forall s rest,
  In rest (exec r s) -> exists m, s = m ++ rest /\ matches r m.
Proof.
  induction r as [|a|r1 IH1 r2 IH2|r IH|a]; intros s rest; cbn [exec].
  - intros [<-|[]]. exists []. split; [done|constructor].
  - destruct s as [|c s]; [done|]. destruct (atom_matches a c) eqn:Hc; [|done].
    intros [<-|[]]. exists [c]. split; [done|]. by constructor.
  - intros (mid & Hmid & Hrest)%in_flat_map.
    destruct (IH1 _ _ Hmid) as (m1 & -> & Hm1).
    destruct (IH2 _ _ Hrest) as (m2 & -> & Hm2).
    exists (m1 ++ m2). split; [by rewrite app_assoc|]. by constructor.
  - intros [Hin|[<-|[]]]%in_app_or.
    + destruct (IH _ _ Hin) as (m & -> & Hm). exists m. split; [done|].
      by apply matches_opt_some.
    + exists []. split; [done|]. apply matches_opt_none.
  - apply plus_exec_sound.
Qed.

Lemma exec_complete r m :
  matches r m -> forall rest, In rest (exec r (m ++ rest)).
Proof.
  induction 1 as [|a c Hc|r1 r2 s1 s2 _ IH1 _ IH2|r s _ IH|r|a c Hc|a c s Hc _ IH];
    intros rest; cbn [exec app].
  - by left.
  - rewrite Hc. by left.
  - apply in_flat_map. exists (s2 ++ rest). split; [|apply IH2].
    rewrite <- app_assoc. apply IH1.
  - apply in_or_app. left. apply IH.
  - apply in_or_app. right. by left.
  - cbn. rewrite Hc. apply in_or_app. right. by left.
  - cbn [plus_exec]. rewrite Hc. apply in_or_app. left. apply (IH rest).
Qed.

(** [s] has, at its head, a string the pattern denotes. *)
Lemma exec_nonempty r s :
  exec r s <> [] <-> exists m post, s = m ++ post /\ matches r m.
Proof.
  split.
  - destruct (exec r s) as [|rest l] eqn:E; [done|]. intros _.
    destruct (exec_sound r s rest) as (m & -> & Hm); [rewrite E; by left|]. eauto.
  - intros (m & post & -> & Hm) E.
    pose proof (exec_complete r m Hm post) as Hin. by rewrite E in Hin.
Qed.

Lemma regex_search_spec r s : forall index,
  match regex_search r s index with
  | Some (j, m) =>
      exists pre post, first_occurrence r s pre m post /\ j = index + length pre
  | None => forall pre m post, s = pre ++ m ++ post -> ~ matches r m
  end.
Proof.
  induction s as [|c s IH]; intros index; cbn [regex_search].
  - destruct (exec r []) as [|rest l] eqn:E.
    + intros pre m post Heq Hm.
      symmetry in Heq. apply app_eq_nil in Heq as [-> [-> ->]%app_eq_nil].
      pose proof (exec_complete r [] Hm []) as Hin. cbn in Hin. by rewrite E in Hin.
    + destruct (exec_sound r [] rest) as (m & Heq & Hm); [rewrite E; by left|].
      symmetry in Heq. apply app_eq_nil in Heq as [-> ->]. cbn.
      exists [], []. repeat split; cbn; try done; try lia.
  - destruct (exec r (c :: s)) as [|rest l] eqn:E.
    + assert (forall m post, c :: s = m ++ post -> ~ matches r m) as Hhead.
      { intros m post Heq Hm. pose proof (exec_complete r m Hm post) as Hin.
        by rewrite <- Heq, E in Hin. }
      specialize (IH (S index)). destruct (regex_search r s (S index)) as [[j m]|].
      * destruct IH as (pre & post & (-> & Hm & Hleft) & ->).
        exists (c :: pre), post. repeat split; cbn; try done; try lia.
        intros [|c' pre'] m' post' Heq Hm'; [by destruct (Hhead m' post' Heq)|].
        injection Heq as -> Heq. cbn. apply le_n_S. by eapply Hleft.
      * intros [|c' pre] m post Heq Hm; [by destruct (Hhead m post Heq)|].
        injection Heq as -> Heq. by eapply IH.
    + destruct (exec_sound r (c :: s) rest) as (m & Heq & Hm); [rewrite E; by left|].
      assert (take (length (c :: s) - length rest) (c :: s) = m) as ->.
      { by rewrite Heq, length_app, Nat.add_sub, take_app_length. }
      exists [], rest. repeat split; cbn; try done; lia.
Qed.

Lemma RegExp_test_String_match r text :
  RegExp_test r text = true <-> exists m, String_match text r = Some m.
Proof.
  unfold RegExp_test, String_match. destruct (regex_search r text 0) as [[j m]|]; cbn.
  - split; eauto.
  - split; [done | by intros [m Hm]].
Qed.

Lemma String_match_first r text m :
  String_match text r = Some m -> exists pre post, first_occurrence r text pre m post.
Proof.
  unfold String_match. pose proof (regex_search_spec r text 0) as H.
  destruct (regex_search r text 0) as [[j m']|]; cbn; [|done].
  intros [= ->]. destruct H as (pre & post & H & _). eauto.
Qed.

Lemma String_match_none r text :
  String_match text r = None ->
  forall pre m post, text = pre ++ m ++ post -> ~ matches r m.
Proof.
  unfold String_match. pose proof (regex_search_spec r text 0) as H.
  by destruct (regex_search r text 0) as [[j m']|].
Qed.

(** ** The strings [TIKTOK_REGEX] denotes *)

Ltac N_cases :=
  repeat (match goal with
          | |- context [(?a <=? ?b)%N] => destruct (N.leb_spec a b)
          | |- context [(?a <? ?b)%N] => destruct (N.ltb_spec a b)
          | |- context [(?a =? ?b)%N] => destruct (N.eqb_spec a b)
          | H : context [(?a <=? ?b)%N] |- _ => destruct (N.leb_spec a b)
          | H : context [(?a <? ?b)%N] |- _ => destruct (N.ltb_spec a b)
          | H : context [(?a =? ?b)%N] |- _ => destruct (N.eqb_spec a b)
          end; cbn in *);
  try done; try lia.

Lemma ci_lower p c :
  is_lower p = true -> ci p c -> is_alpha c = true /\ lower_ascii c = p.
Proof.
  unfold ci, atom_matches, is_lower, is_alpha, upper_ascii, lower_ascii.
  intros Hp Hc. N_cases.
Qed.

Lemma ci_lower_or_dot p c :
  is_lower_or_dot p = true -> ci p c -> is_alpha_or_dot c = true /\ lower_ascii c = p.
Proof.
  unfold is_lower_or_dot, is_alpha_or_dot. intros Hp Hc.
  destruct (is_lower p) eqn:Hl.
  - destruct (ci_lower p c Hl Hc) as [-> ->]. done.
  - cbn in Hp. apply N.eqb_eq in Hp as ->.
    revert Hc. unfold ci, atom_matches, is_alpha, upper_ascii, lower_ascii.
    intros Hc. N_cases.
Qed.

(** A pattern character that is not a letter matches itself only. *)
Lemma ci_punctuation p c :
  (p < 65)%N -> ci p c -> c = p.
Proof.
  unfold ci, atom_matches, upper_ascii. intros Hp Hc. N_cases.
Qed.

Lemma Forall2_ci_lower pat s :
  forallb is_lower pat = true -> Forall2 ci pat s ->
  forallb is_alpha s = true /\ map lower_ascii s = pat.
Proof.
  intros Hpat H. induction H as [|p c pat s Hc _ IH]; [done|].
  cbn in Hpat. apply andb_prop in Hpat as [Hp Hpat].
  destruct (ci_lower p c Hp Hc) as [Ha Hl], (IH Hpat) as [IHa IHl].
  cbn. by rewrite Ha, IHa, Hl, IHl.
Qed.

Lemma Forall2_ci_lower_or_dot pat s :
  forallb is_lower_or_dot pat = true -> Forall2 ci pat s ->
  forallb is_alpha_or_dot s = true /\ map lower_ascii s = pat.
Proof.
  intros Hpat H. induction H as [|p c pat s Hc _ IH]; [done|].
  cbn in Hpat. apply andb_prop in Hpat as [Hp Hpat].
  destruct (ci_lower_or_dot p c Hp Hc) as [Ha Hl], (IH Hpat) as [IHa IHl].
  cbn. by rewrite Ha, IHa, Hl, IHl.
Qed.

Lemma Forall2_ci_punctuation pat s :
  forallb (fun p => p <? 65)%N pat = true -> Forall2 ci pat s -> s = pat.
Proof.
  intros Hpat H. induction H as [|p c pat s Hc _ IH]; [done|].
  cbn in Hpat. apply andb_prop in Hpat as [Hp%N.ltb_lt Hpat].
  by rewrite (ci_punctuation p c Hp Hc), (IH Hpat).
Qed.

Lemma matches_Cat_inv r1 r2 m :
  matches (Cat r1 r2) m -> exists s1 s2, m = s1 ++ s2 /\ matches r1 s1 /\ matches r2 s2.
Proof. inversion 1; subst; eauto. Qed.

Lemma matches_Opt_inv r m : matches (Opt r) m -> m = [] \/ matches r m.
Proof. inversion 1; subst; eauto. Qed.

Lemma matches_Plus_nonempty a m : matches (Plus a) m -> m <> [].
Proof. by inversion 1. Qed.

Lemma matches_chars_inv pat m :
  matches (foldr (fun c r => Cat (Atom (Lit c)) r) Eps pat) m -> Forall2 ci pat m.
Proof.
  revert m. induction pat as [|p pat IH]; intros m; cbn.
  - inversion 1. constructor.
  - intros (s1 & s2 & -> & H1 & H2)%matches_Cat_inv.
    inversion H1; subst. cbn. constructor; [done | by apply IH].
Qed.

Lemma optional_chars_host pat m :
  forallb is_lower_or_dot (u pat) = true ->
  matches (Opt (chars pat)) m -> forallb is_alpha_or_dot m = true.
Proof.
  intros Hpat [->|Hm%matches_chars_inv]%matches_Opt_inv; [done|].
  by destruct (Forall2_ci_lower_or_dot _ _ Hpat Hm).
Qed.

Lemma TIKTOK_REGEX_shape m :
  matches TIKTOK_REGEX m -> exists sch host tail, link_shape m sch host tail /\ tail <> [].
Proof.
  unfold TIKTOK_REGEX.
  intros (a & ? & -> & Ha%matches_chars_inv & H)%matches_Cat_inv.
  apply matches_Cat_inv in H as (b & ? & -> & Hb & H).
  apply matches_Cat_inv in H as (c & ? & -> & Hc%matches_chars_inv & H).
  apply matches_Cat_inv in H as (d & ? & -> & Hd & H).
  apply matches_Cat_inv in H as (e & ? & -> & He & H).
  apply matches_Cat_inv in H as (f & ? & -> & Hf & H).
  apply matches_Cat_inv in H as (g & tail & -> & Hg%matches_chars_inv & Htail).
  apply (Forall2_ci_lower (u "http")) in Ha as [Ha1 Ha2]; [|done].
  apply (Forall2_ci_punctuation (u "://")) in Hc as ->; [|done].
  apply (optional_chars_host "www.") in Hd; [|done].
  apply (optional_chars_host "m.") in He; [|done].
  apply (optional_chars_host "vm.") in Hf; [|done].
  change (u "tiktok.com/") with (u "tiktok.com" ++ [47%N]) in Hg.
  apply Forall2_app_inv_l in Hg as (g1 & g2 & Hg1 & Hg2 & ->).
  apply (Forall2_ci_punctuation [47%N]) in Hg2 as ->; [|done].
  assert (g1 <> []) as Hne by (inversion Hg1; done).
  apply (Forall2_ci_lower_or_dot (u "tiktok.com")) in Hg1 as [Hg1 _]; [|done].
  exists (a ++ b), (d ++ e ++ f ++ g1), tail.
  split; [|by eapply matches_Plus_nonempty].
  split; [by rewrite <- !app_assoc|].
  split; [by destruct a|].
  assert (forallb is_alpha (a ++ b) = true
          /\ map lower_ascii (a ++ b) ∈ [u "http"; u "https"]) as [Hs1 Hs2].
  { rewrite forallb_app, map_app, Ha1, Ha2.
    apply matches_Opt_inv in Hb as [->|Hb%matches_chars_inv].
    - split; [done|]. rewrite app_nil_r. set_solver.
    - apply (Forall2_ci_lower (u "s")) in Hb as [-> ->]; [|done].
      split; [done|]. set_solver. }
  split; [done|]. split; [done|].
  split; [by destruct d, e, f, g1|].
  by rewrite !forallb_app, Hd, He, Hf, Hg1.
Qed.

(** ** The host name of a link *)

Lemma drop_while_stop (f : N -> bool) a c b :
  f c = false -> drop_while f (a ++ c :: b) = drop_while f a ++ c :: b.
Proof.
  intros Hc. induction a as [|x a IH]; cbn; [by rewrite Hc|].
  by destruct (f x).
Qed.

(** Stripping does not reach past a character that stays. *)
Lemma strip_keeps c pre d tail :
  is_c0_or_space c = false -> is_c0_or_space d = false ->
  exists tail', strip (c :: pre ++ d :: tail) = c :: pre ++ d :: tail'.
Proof.
  intros Hc Hd. unfold strip. cbn [drop_while]. rewrite Hc.
  exists (reverse (drop_while is_c0_or_space (reverse tail))).
  rewrite reverse_cons, reverse_app, reverse_cons, <- !app_assoc. cbn [app].
  rewrite (drop_while_stop _ _ d) by done.
  rewrite reverse_app, reverse_cons, reverse_app, reverse_involutive.
  rewrite reverse_singleton. cbn. by rewrite <- !app_assoc.
Qed.

Lemma alpha_or_dot_facts c :
  is_alpha_or_dot c = true ->
  is_c0_or_space c = false /\ is_tab_or_newline c = false
  /\ is_slash c = false /\ ends_authority c = false.
Proof.
  unfold is_alpha_or_dot, is_alpha, lower_ascii, is_c0_or_space, is_tab_or_newline,
    is_slash, ends_authority.
  intros H. N_cases.
Qed.

Lemma alpha_facts c :
  is_alpha c = true ->
  is_alpha_or_dot c = true /\ (c =? 58)%N = false /\ is_scheme_char c = true.
Proof.
  unfold is_scheme_char, is_alpha_or_dot. intros H. rewrite H. split; [done|].
  split; [|done]. revert H. unfold is_alpha, lower_ascii. intros H. N_cases.
Qed.

Lemma filter_keeps_host s :
  forallb is_alpha_or_dot s = true ->
  List.filter (fun c => negb (is_tab_or_newline c)) s = s.
Proof.
  intros H. apply forallb_filter_id.
  rewrite forallb_forall in H |- *. intros c Hc.
  by destruct (alpha_or_dot_facts c (H c Hc)) as (_ & -> & _).
Qed.

Lemma scheme_state_letters sch rest :
  forallb is_alpha sch = true ->
  scheme_state (sch ++ 58%N :: rest) = Some (map lower_ascii sch, rest).
Proof.
  induction sch as [|c sch IH]; cbn; [done|].
  intros [Hc Hsch]%andb_prop.
  destruct (alpha_facts c Hc) as (_ & -> & ->). by rewrite IH.
Qed.

Lemma take_while_host host rest :
  forallb is_alpha_or_dot host = true ->
  take_while (fun c => negb (ends_authority c)) (host ++ 47%N :: rest) = host.
Proof.
  induction host as [|c host IH]; cbn; [done|].
  intros [Hc Hhost]%andb_prop.
  destruct (alpha_or_dot_facts c Hc) as (_ & _ & _ & ->). cbn. by rewrite IH.
Qed.

Lemma forallb_alpha_or_dot sch :
  forallb is_alpha sch = true -> forallb is_alpha_or_dot sch = true.
Proof.
  intros H. rewrite forallb_forall in H |- *. intros c Hc.
  by destruct (alpha_facts c (H c Hc)) as (-> & _).
Qed.

Lemma forallb_keeps s :
  forallb is_alpha_or_dot s = true ->
  forallb (fun c => negb (is_tab_or_newline c)) s = true.
Proof.
  intros H. rewrite forallb_forall in H |- *. intros c Hc.
  by destruct (alpha_or_dot_facts c (H c Hc)) as (_ & -> & _).
Qed.

(** Stripping and the removal of tabs and newlines leave a link as it is,
    up to its last slash. *)
Lemma cleaned_link sch host tail :
  sch <> [] -> forallb is_alpha sch = true -> forallb is_alpha_or_dot host = true ->
  exists tail',
    List.filter (fun c => negb (is_tab_or_newline c))
                (strip (sch ++ u "://" ++ host ++ 47%N :: tail))
    = sch ++ 58%N :: 47%N :: 47%N :: host ++ 47%N :: tail'.
Proof.
  intros Hne Hsch Hhost. destruct sch as [|c sch]; [done|].
  pose proof (forallb_alpha_or_dot _ Hsch) as Hsch'.
  pose proof Hsch' as [Hc _]%andb_prop.
  destruct (alpha_or_dot_facts c Hc) as (Hc0 & _).
  assert ((c :: sch) ++ u "://" ++ host ++ 47%N :: tail
          = c :: (sch ++ 58%N :: 47%N :: 47%N :: host) ++ 47%N :: tail) as ->.
  { cbn. by rewrite <- app_assoc. }
  destruct (strip_keeps c (sch ++ 58%N :: 47%N :: 47%N :: host) 47 tail Hc0 eq_refl)
    as [tail' ->].
  exists (List.filter (fun c => negb (is_tab_or_newline c)) tail').
  assert (c :: (sch ++ 58%N :: 47%N :: 47%N :: host) ++ 47%N :: tail'
          = ((c :: sch) ++ [58; 47; 47]%N ++ host) ++ 47%N :: tail') as ->.
  { cbn. by rewrite <- !app_assoc. }
  rewrite List.filter_app, forallb_filter_id.
  - cbn. by rewrite <- !app_assoc.
  - rewrite !forallb_app, (forallb_keeps _ Hsch'), (forallb_keeps _ Hhost). done.
Qed.

Lemma scheme_start_state_letters sch rest :
  sch <> [] -> forallb is_alpha sch = true ->
  scheme_start_state (sch ++ 58%N :: rest) = Some (map lower_ascii sch, rest).
Proof.
  intros Hne Hsch. unfold scheme_start_state.
  rewrite scheme_state_letters by done.
  destruct sch as [|c sch]; [done|]. cbn in Hsch |- *.
  by apply andb_prop in Hsch as [-> _].
Qed.

Lemma drop_while_slashes host rest :
  host <> [] -> forallb is_alpha_or_dot host = true ->
  drop_while is_slash (47%N :: 47%N :: host ++ rest) = host ++ rest.
Proof.
  intros Hne Hhost. destruct host as [|h host]; [done|].
  apply andb_prop in Hhost as [Hh _].
  destruct (alpha_or_dot_facts h Hh) as (_ & _ & Hslash & _).
  cbn. by rewrite Hslash.
Qed.

(** The parse of a link does not depend on what follows the host, nor on
    [URL_beyond]. *)
Lemma URL_hostname_link URL_beyond m sch host tail :
  link_shape m sch host tail ->
  URL_hostname URL_beyond m = Some (map lower_ascii host).
Proof.
  intros (-> & Hne & Hsch & Hscheme & Hhost_ne & Hhost).
  unfold URL_hostname.
  destruct (cleaned_link sch host tail Hne Hsch Hhost) as [tail' ->].
  rewrite scheme_start_state_letters by done.
  rewrite bool_decide_eq_true_2 by done.
  rewrite drop_while_slashes by done.
  rewrite take_while_host by done.
  destruct host as [|h host]; [done|]. by rewrite Hhost.
Qed.

(** Two strings the pattern denotes that start at the same place of a text
    parse to the same host. *)
Lemma URL_hostname_same_start URL_beyond m1 post1 m2 post2 :
  m1 ++ post1 = m2 ++ post2 ->
  matches TIKTOK_REGEX m1 -> matches TIKTOK_REGEX m2 ->
  URL_hostname URL_beyond m1 = URL_hostname URL_beyond m2.
Proof.
  assert (forall m ext, matches TIKTOK_REGEX m ->
            URL_hostname URL_beyond (m ++ ext) = URL_hostname URL_beyond m) as Hext.
  { intros m ext (sch & host & tail & Hshape & _)%TIKTOK_REGEX_shape.
    rewrite (URL_hostname_link URL_beyond m sch host tail Hshape).
    apply (URL_hostname_link URL_beyond _ sch host (tail ++ ext)).
    destruct Hshape as (-> & Hrest). split; [|done].
    by rewrite <- !app_assoc. }
  intros Heq H1 H2.
  apply app_eq_app in Heq as [ext [[-> _]|[-> _]]].
  - by rewrite Hext.
  - by rewrite Hext.
Qed.

(** ** [isTikTokUrl] *)

Lemma exec_matches r m : In [] (exec r m) -> matches r m.
Proof.
  intros (m' & -> & Hm)%exec_sound. by rewrite app_nil_r.
Qed.

Lemma first_occurrence_hostname URL_beyond text pre1 m1 post1 pre2 m2 post2 :
  first_occurrence TIKTOK_REGEX text pre1 m1 post1 ->
  first_occurrence TIKTOK_REGEX text pre2 m2 post2 ->
  URL_hostname URL_beyond m1 = URL_hostname URL_beyond m2.
Proof.
  intros (Ht1 & Hm1 & Hleft1) (Ht2 & Hm2 & Hleft2).
  pose proof (Hleft1 pre2 m2 post2 Ht2 Hm2).
  pose proof (Hleft2 pre1 m1 post1 Ht1 Hm1).
  rewrite Ht1 in Ht2. apply app_inj_1 in Ht2 as [_ Heq]; [|lia].
  by eapply URL_hostname_same_start.
Qed.

Lemma isTikTokUrl_first_occurrence URL_beyond text :
  isTikTokUrl URL_beyond text = true <->
  exists pre m post,
    first_occurrence TIKTOK_REGEX text pre m post /\ allowed_host URL_beyond m.
Proof.
  unfold isTikTokUrl. split.
  - destruct (RegExp_test TIKTOK_REGEX text); [|done]. cbn.
    destruct (String_match text TIKTOK_REGEX) as [m|] eqn:Hmatch; [|done].
    destruct (String_match_first _ _ _ Hmatch) as (pre & post & Hfirst).
    destruct (URL_hostname URL_beyond m) as [hostname|] eqn:Hhost; [|done].
    intros Hin%bool_decide_eq_true_1. exists pre, m, post. split; [done|].
    by exists hostname.
  - intros (pre & m & post & Hfirst & hostname & Hhost & Hin).
    destruct (String_match text TIKTOK_REGEX) as [m0|] eqn:Hmatch.
    + assert (RegExp_test TIKTOK_REGEX text = true) as ->.
      { apply RegExp_test_String_match. eauto. }
      cbn. destruct (String_match_first _ _ _ Hmatch) as (pre0 & post0 & Hfirst0).
      rewrite (first_occurrence_hostname URL_beyond text _ _ _ _ _ _ Hfirst0 Hfirst), Hhost.
      by apply bool_decide_eq_true_2.
    + destruct Hfirst as (Htext & Hm & _).
      by destruct (String_match_none _ _ Hmatch pre m post Htext).
Qed.

(** C1, as amended. [isTikTokUrl] returns true exactly when the text has a
    substring that the link pattern denotes and the parsed host name of the
    first such substring (none starts further left) is, in lower case, one
    of the four allowed host names. The three example texts come out as
    stated. *)
Theorem isTikTokUrl_first_link URL_beyond :
  (forall text,
     isTikTokUrl URL_beyond text = true <->
     exists pre m post,
       first_occurrence TIKTOK_REGEX text pre m post /\ allowed_host URL_beyond m)
  /\ isTikTokUrl URL_beyond (u "check https://www.tiktok.com/@x/video/1") = true
  /\ isTikTokUrl URL_beyond (u "see https://eviltiktok.com/video") = false
  /\ isTikTokUrl URL_beyond (u "https://tiktok.com.evil.net/a") = false.
Proof.
  split; [apply isTikTokUrl_first_occurrence|]. by vm_compute.
Qed.

(** C1, as stated, fails: in the text below the second link is denoted by
    the pattern and parses to [tiktok.com], yet [isTikTokUrl] returns false,
    because the first link parses to [www.m.tiktok.com]. *)
Lemma isTikTokUrl_not_any_link :
  ~ (isTikTokUrl (fun _ => None) (u "https://www.m.tiktok.com/a https://tiktok.com/b") = true
     <-> contains_allowed_link (fun _ => None)
           (u "https://www.m.tiktok.com/a https://tiktok.com/b")).
Proof.
  intros [_ H].
  assert (isTikTokUrl (fun _ => None) (u "https://www.m.tiktok.com/a https://tiktok.com/b")
          = false) as Hfalse by by vm_compute.
  rewrite H in Hfalse; [done|].
  exists (u "https://www.m.tiktok.com/a "), (u "https://tiktok.com/b"), [].
  split; [done|]. split.
  - apply exec_matches. vm_compute. by left.
  - exists (u "tiktok.com"). split; [by vm_compute|].
    apply (bool_decide_unpack _). by vm_compute.
Qed.

(** C9. When the first substring of the text that the link pattern denotes
    parses to a host name outside the allow-list, [isTikTokUrl] returns
    false for the whole text, whatever follows that substring. *)
Theorem isTikTokUrl_first_link_decides URL_beyond text pre m post hostname :
  first_occurrence TIKTOK_REGEX text pre m post ->
  URL_hostname URL_beyond m = Some hostname ->
  toLowerCase hostname ∉ ALLOWED_DOMAINS ->
  isTikTokUrl URL_beyond text = false.
Proof.
  intros Hfirst Hhost Hout.
  destruct (isTikTokUrl URL_beyond text) eqn:E; [|done].
  apply isTikTokUrl_first_occurrence in E
    as (pre' & m' & post' & Hfirst' & hostname' & Hhost' & Hin).
  rewrite (first_occurrence_hostname URL_beyond text _ _ _ _ _ _ Hfirst Hfirst') in Hhost.
  by simplify_eq.
Qed.

Lemma isTikTokUrl_first_link_decides_witness :
  contains_allowed_link (fun _ => None) (u "https://www.m.tiktok.com/a https://tiktok.com/b")
  /\ isTikTokUrl (fun _ => None) (u "https://www.m.tiktok.com/a https://tiktok.com/b") = false.
Proof.
  split.
  - exists (u "https://www.m.tiktok.com/a "), (u "https://tiktok.com/b"), [].
    split; [reflexivity|]. split.
    + apply exec_matches. vm_compute. by left.
    + exists (u "tiktok.com"). split; [vm_compute; reflexivity|].
      apply (bool_decide_unpack _). vm_compute. exact I.
  - apply (isTikTokUrl_first_link_decides (fun _ => None)
             (u "https://www.m.tiktok.com/a https://tiktok.com/b")
             [] (u "https://www.m.tiktok.com/a") (u " https://tiktok.com/b")
             (u "www.m.tiktok.com")).
    + split; [reflexivity|]. split; [|intros; cbn; lia].
      apply exec_matches. vm_compute. by left.
    + vm_compute. reflexivity.
    + apply (bool_decide_unpack _). vm_compute. exact I.
Defined.

(** ** Title and author defaults *)

(** C6, as stated, fails for the second descriptor: on a payload without a
    nickname its author is the payload's top-level [author], not
    ["Unknown"]. *)
Lemma extract2_author_not_as_stated :
  ~ defaults_as_stated extract2 payload_author_only.
Proof.
  intros H.
  destruct (H (Normalized (VStr (u "http://x/v.mp4")) (VStr (u "T")) (VStr (u "Bob"))))
    as [_ Hauthor]; [by vm_compute|].
  vm_compute in Hauthor. discriminate Hauthor.
Qed.

Lemma truthy_js_or a b : truthy (js_or a b) = truthy a || truthy b.
Proof. unfold js_or. by destruct (truthy a) eqn:E; rewrite ?E. Qed.

Lemma js_or_js_or a b fallback :
  js_or (js_or a b) fallback = first_truthy [a; b] fallback.
Proof.
  unfold js_or. cbn. destruct (truthy a) eqn:E1; rewrite ?E1; [done|].
  by destruct (truthy b) eqn:E2; rewrite ?E2.
Qed.

(** C6, as amended. The registry's two [extract] functions are [extract1]
    and [extract2]. Each returns [null] exactly when none of its video
    fields is truthy ([data.data.play]; for the second also
    [data.data.wmplay] and [data.play]). In a tuple, the title is the first
    truthy of the descriptor's title fields ([data.data.title]; for the
    second then [data.title]) and ["TikTok Video"] when there is none; the
    author is the first truthy of [data.data.author.nickname] and, for the
    second descriptor, then [data.author], and ["Unknown"] when there is
    none. *)
Theorem extract_defaults :
  Forall2 (fun p extract_fn => forall data s, extract p data s = (Normal (extract_fn data), s))
          API_PROVIDERS [extract1; extract2]
  /\ (forall data, extract1 data = None <-> truthy data?."data"?."play" = false)
  /\ (forall data, defaults_as_stated extract1 data)
  /\ (forall data,
        extract2 data = None <->
        Forall (fun v => truthy v = false)
               [data?."data"?."play"; data?."data"?."wmplay"; data?."play"])
  /\ (forall data tuple, extract2 data = Some tuple ->
        title tuple = first_truthy [data?."data"?."title"; data?."title"]
                                   (VStr (u "TikTok Video"))
        /\ author tuple = first_truthy [data?."data"?."author"?."nickname"; data?."author"]
                                       (VStr (u "Unknown"))).
Proof.
  split; [by repeat constructor|].
  split; [|split; [|split]].
  - intros data. unfold extract1. by destruct (truthy _).
  - intros data tuple. unfold extract1.
    destruct (truthy data?."data"?."play"); cbn; [|done]. by intros [= <-].
  - intros data. unfold extract2. cbn zeta.
    rewrite !Forall_cons, Forall_nil.
    destruct (truthy (js_or _ _)) eqn:E; rewrite !truthy_js_or in E; cbn [negb].
    + split; [done|]. intros (E1 & E2 & E3 & _). by rewrite E1, E2, E3 in E.
    + split; [|done]. intros _.
      apply orb_false_elim in E as [[E1 E2]%orb_false_elim E3]. done.
  - intros data tuple. unfold extract2.
    destruct (truthy (js_or _ _)); cbn [negb]; [|done]. intros [= <-].
    cbn [title author]. by rewrite !js_or_js_or.
Qed.

(** * Startup configuration: what the parsing guarantees *)

Example parse_keys_example :
  parse_keys (Some (u " a1 , ,b2,,  c 3  ,")) = [u "a1"; u "b2"; u "c 3"].
Proof. vm_compute. reflexivity. Qed.

Lemma drop_while_suffix (f : N -> bool) s :
  exists pre, s = pre ++ drop_while f s /\ forallb f pre = true.
Proof.
  induction s as [|c s (pre & IH & Hpre)]; [by exists []|]. cbn.
  destruct (f c) eqn:Hc; [|by exists []].
  exists (c :: pre). cbn. rewrite Hc, Hpre. split; [by f_equal|done].
Qed.

Lemma drop_while_head (f : N -> bool) s c rest :
  drop_while f s = c :: rest -> f c = false.
Proof.
  induction s as [|x s IH]; cbn; [done|].
  destruct (f x) eqn:Hx; [done|]. by intros [= <- _].
Qed.

Lemma drop_while_keeps (f : N -> bool) c s :
  f c = false -> drop_while f (c :: s) = c :: s.
Proof. intros H. cbn. by rewrite H. Qed.

Lemma drop_while_pad (f : N -> bool) l s :
  forallb f l = true -> drop_while f (l ++ s) = drop_while f s.
Proof.
  induction l as [|c l IH]; cbn; [done|].
  intros [-> Hl]%andb_prop. by apply IH.
Qed.

Lemma drop_while_nil (f : N -> bool) s :
  drop_while f s = [] <-> forallb f s = true.
Proof.
  induction s as [|c s IH]; cbn; [done|].
  destruct (f c); cbn; [done|]. split; discriminate.
Qed.

Lemma forallb_reverse (f : N -> bool) s :
  forallb f (reverse s) = forallb f s.
Proof.
  induction s as [|c s IH]; [done|].
  rewrite reverse_cons, forallb_app, IH. cbn. rewrite andb_true_r. apply andb_comm.
Qed.

Lemma trim_nil s : trim s = [] <-> forallb is_space s = true.
Proof.
  unfold trim. split.
  - intros H. apply (f_equal reverse) in H. rewrite reverse_involutive in H.
    change (reverse []) with (@nil N) in H.
    apply drop_while_nil in H. rewrite forallb_reverse in H.
    apply drop_while_nil. destruct (drop_while is_space s) as [|c rest] eqn:E; [done|].
    apply drop_while_head in E. cbn in H. by rewrite E in H.
  - intros H%drop_while_nil. by rewrite H.
Qed.

(** What [trim] leaves starts and ends with a code unit that is not white
    space, and is a part of the string. *)
Lemma trim_spec s :
  exists l r, s = l ++ trim s ++ r
    /\ forallb is_space l = true /\ forallb is_space r = true
    /\ (trim s <> [] ->
        (exists c, head (trim s) = Some c /\ is_space c = false)
        /\ (exists c, last (trim s) = Some c /\ is_space c = false)).
Proof.
  unfold trim.
  destruct (drop_while_suffix is_space s) as (l & Hs & Hl).
  destruct (drop_while_suffix is_space (reverse (drop_while is_space s))) as (r & Hr & Hr').
  set (A := drop_while is_space s) in *.
  set (B := drop_while is_space (reverse A)) in *.
  assert (A = reverse B ++ reverse r) as HA.
  { by rewrite <- reverse_app, <- Hr, reverse_involutive. }
  exists l, (reverse r). split; [by rewrite <- HA|].
  split; [done|]. split; [by rewrite forallb_reverse|].
  intros HB. split.
  - destruct (reverse B) as [|c X] eqn:E; [done|].
    exists c. split; [done|]. apply (drop_while_head is_space s c (X ++ reverse r)).
    fold A. by rewrite HA.
  - rewrite last_reverse. destruct B as [|c B'] eqn:E; [done|].
    exists c. split; [done|]. by apply (drop_while_head is_space (reverse A) c B').
Qed.

Lemma trim_padded piece k :
  clean_key k -> padded_key piece k -> trim piece = k.
Proof.
  intros ((c & Hc & Hsp) & (d & Hd & Hsd) & _) (l & r & -> & Hl & Hr).
  unfold trim. rewrite drop_while_pad by done.
  destruct k as [|c' k]; [done|]. injection Hc as ->.
  cbn [app]. rewrite drop_while_keeps by done.
  change (c :: k ++ r) with ((c :: k) ++ r).
  rewrite reverse_app, drop_while_pad by by rewrite forallb_reverse.
  rewrite <- head_reverse in Hd.
  destruct (reverse (c :: k)) as [|d' X] eqn:E; [done|]. injection Hd as ->.
  rewrite drop_while_keeps by done. by rewrite <- E, reverse_involutive.
Qed.

Lemma split_on_nonempty sep s : split_on sep s <> [].
Proof.
  destruct s as [|c s]; cbn; [done|].
  destruct (c =? sep)%N; [done|]. by destruct (split_on sep s).
Qed.

Lemma split_on_no_sep sep s : Forall (fun piece => sep ∉ piece) (split_on sep s).
Proof.
  induction s as [|c s IH]; cbn.
  - repeat constructor. apply not_elem_of_nil.
  - destruct (N.eqb_spec c sep) as [->|Hne].
    + constructor; [apply not_elem_of_nil | done].
    + destruct (split_on sep s) as [|piece pieces].
      * repeat constructor. by intros ->%list_elem_of_singleton.
      * apply Forall_cons in IH as [Hp Hps]. constructor; [|done].
        by intros [->|Hin]%elem_of_cons.
Qed.

Lemma split_on_app_sep sep k s :
  sep ∉ k -> split_on sep (k ++ sep :: s) = k :: split_on sep s.
Proof.
  induction k as [|c k IH]; intros Hk; cbn.
  - by rewrite N.eqb_refl.
  - destruct (N.eqb_spec c sep) as [->|Hne]; [set_solver|].
    rewrite IH by set_solver. done.
Qed.

Lemma split_on_single sep k : sep ∉ k -> split_on sep k = [k].
Proof.
  induction k as [|c k IH]; intros Hk; cbn; [done|].
  destruct (N.eqb_spec c sep) as [->|Hne]; [set_solver|].
  rewrite IH by set_solver. done.
Qed.

Lemma split_on_join_comma pieces :
  pieces <> [] -> Forall (fun piece => 44%N ∉ piece) pieces ->
  split_on 44 (join_comma pieces) = pieces.
Proof.
  induction pieces as [|k [|k' rest] IH]; intros Hne Hall; [done| |].
  - apply Forall_cons in Hall as [Hk _]. by apply split_on_single.
  - apply Forall_cons in Hall as [Hk Hall].
    change (join_comma (k :: k' :: rest)) with (k ++ 44%N :: join_comma (k' :: rest)).
    rewrite split_on_app_sep by done. by rewrite IH.
Qed.

(** The pieces that are all white space are exactly those of a string made
    of commas and white space. *)
Lemma split_on_blank s :
  Forall (fun piece => forallb is_space piece = true) (split_on 44 s)
  <-> Forall (fun c => c = 44%N \/ is_space c = true) s.
Proof.
  induction s as [|c s IH]; cbn.
  - split; intros _; by repeat constructor.
  - destruct (N.eqb_spec c 44) as [->|Hne].
    + rewrite !Forall_cons, IH. cbn. intuition.
    + pose proof (split_on_nonempty 44 s) as Hs.
      destruct (split_on 44 s) as [|piece pieces]; [done|].
      rewrite !Forall_cons in *. cbn. rewrite andb_true_iff. intuition.
Qed.

Lemma filter_nonempty_nil (l : list (list N)) :
  List.filter nonempty l = [] <-> Forall (fun k => k = []) l.
Proof.
  induction l as [|k l IH]; cbn; [by split; intros; constructor|].
  rewrite Forall_cons. destruct k; cbn; [|split; [done | by intros [? _]]].
  rewrite IH. intuition.
Qed.

Lemma parse_keys_as_pieces env :
  parse_keys env = List.filter nonempty (map trim (split_on 44 (default [] env))).
Proof. reflexivity. Qed.

(** X1. Every key of the parsed pool starts and ends with a code unit that
    is not white space, so it is not empty, and holds no comma: blank entries
    of the variable are dropped and the others are trimmed. *)
Theorem parse_keys_clean env : Forall clean_key (parse_keys env).
Proof.
  unfold parse_keys. apply Forall_forall. intros k Hk.
  apply list_elem_of_In, filter_In in Hk as [Hk Hne].
  apply in_map_iff in Hk as (piece & <- & Hpiece).
  pose proof (split_on_no_sep 44 (default [] env)) as Hsep.
  rewrite Forall_forall in Hsep. apply list_elem_of_In, Hsep in Hpiece.
  destruct (trim_spec piece) as (l & r & Heq & _ & _ & Hends).
  destruct Hends as [Hhead Hlast]; [by destruct (trim piece)|].
  split; [done|]. split; [done|].
  intros Hin. apply Hpiece. rewrite Heq, !elem_of_app. auto.
Qed.

(** No piece survives the filter exactly when every piece trims to the empty
    string, that is, when the whole string is commas and white space. *)
Lemma parse_keys_nil env :
  parse_keys env = [] <-> Forall (fun c => c = 44%N \/ is_space c = true) (default [] env).
Proof.
  unfold parse_keys. rewrite filter_nonempty_nil, <- split_on_blank, Forall_fmap.
  apply Forall_iff. intros piece. cbn. apply trim_nil.
Qed.

(** X2. The parsed pool is empty exactly when the variable is unset or holds
    nothing but commas and white space. *)
Theorem parse_keys_empty env :
  parse_keys env = [] <-> Forall (fun c => c = 44%N \/ is_space c = true) (default [] env).
Proof. apply parse_keys_nil. Qed.

(** X3. Round trip: when the variable is the comma-joined list of clean
    keys, each with any white space around it, the parsed pool is that list
    of keys, in order. *)
Theorem parse_keys_join keys pieces :
  Forall clean_key keys -> Forall2 padded_key pieces keys ->
  parse_keys (Some (join_comma pieces)) = keys.
Proof.
  intros Hclean Hpad. unfold parse_keys. cbn [from_option id].
  destruct (decide (pieces = [])) as [->|Hne].
  { apply Forall2_nil_inv_l in Hpad as ->. reflexivity. }
  rewrite split_on_join_comma.
  - assert (map trim pieces = keys) as ->.
    { clear Hne. induction Hpad as [|piece k pieces keys Hp _ IH]; [done|].
      apply Forall_cons in Hclean as [Hk Hclean]. cbn.
      rewrite (trim_padded piece k Hk Hp). f_equal. by apply IH. }
    apply forallb_filter_id, forallb_forall. intros k Hk%list_elem_of_In.
    rewrite Forall_forall in Hclean. destruct (Hclean k Hk) as ((c & Hc & _) & _).
    by destruct k.
  - done.
  - clear -Hclean Hpad.
    induction Hpad as [|piece k pieces keys (l & r & -> & Hl & Hr) _ IH]; [done|].
    apply Forall_cons in Hclean as [(_ & _ & Hk) Hclean].
    constructor; [|by apply IH].
    rewrite forallb_forall in Hl, Hr.
    intros [Hin|[Hin|Hin]%elem_of_app]%elem_of_app; [|done|].
    + by specialize (Hl _ (proj1 (list_elem_of_In _ _) Hin)).
    + by specialize (Hr _ (proj1 (list_elem_of_In _ _) Hin)).
Qed.

Lemma parse_keys_join_witness :
  parse_keys (Some (u " k1 ,k2,  k 3")) = [u "k1"; u "k2"; u "k 3"].
Proof.
  apply (parse_keys_join [u "k1"; u "k2"; u "k 3"] [u " k1 "; u "k2"; u "  k 3"]).
  - repeat constructor; try (eexists; split; [reflexivity | reflexivity]);
      apply (bool_decide_unpack _); vm_compute; exact I.
  - repeat constructor.
    + exists (u " "), (u " "). repeat split; reflexivity.
    + exists [], []. repeat split; reflexivity.
    + exists (u "  "), []. repeat split; reflexivity.
Defined.

(** * The rotator from any cursor *)

Lemma rotate_nat_add_mod base offset len :
  rotate_nat_add base offset len = (base + offset) mod len.
Proof.
  unfold rotate_nat_add. by rewrite <- Nat2Z.inj_add, <- Nat2Z.inj_mod, Nat2Z.id.
Qed.

Lemma key_at_elem keys i :
  keys <> [] -> exists k, key_at keys i = Some k /\ k ∈ keys.
Proof.
  intros Hne. unfold key_at.
  destruct (lookup_lt_is_Some_2 keys (i mod length keys)) as [k Hk].
  { apply Nat.mod_upper_bound. by destruct keys. }
  exists k. split; [done|]. by eapply list_elem_of_lookup_2.
Qed.

(** X4. Whatever the cursor, as many calls of the rotator as the pool has
    keys return the pool rotated by the cursor: every key once, in cyclic
    pool order; and the cursor ends that many steps further. *)
Theorem getNextKey_window s :
  getNextKey_times (length (RAPIDAPI_KEYS s)) s =
  (Normal (map Some (rotate (keyIndex s) (RAPIDAPI_KEYS s))),
   {| RAPIDAPI_KEYS := RAPIDAPI_KEYS s;
      keyIndex := keyIndex s + length (RAPIDAPI_KEYS s);
      sent := sent s |}).
Proof.
  rewrite getNextKey_times_run. f_equal. f_equal.
  apply list_eq. intros i. rewrite !list_lookup_fmap.
  destruct (decide (i < length (RAPIDAPI_KEYS s))) as [Hlt|Hge].
  - rewrite lookup_seq_lt, lookup_rotate_r, rotate_nat_add_mod by done. cbn.
    unfold key_at.
    destruct (lookup_lt_is_Some_2 (RAPIDAPI_KEYS s)
                ((keyIndex s + i) mod length (RAPIDAPI_KEYS s))) as [k Hk].
    { apply Nat.mod_upper_bound. lia. }
    by rewrite Hk.
  - rewrite lookup_seq_ge by lia.
    by rewrite (lookup_ge_None_2 (rotate _ _)) by (rewrite length_rotate; lia).
Qed.

(** X5. Over a pool that is not empty, no call of the rotator returns
    [undefined]: in any run of calls from any cursor, every key returned is
    a key of the pool. *)
Theorem getNextKey_in_pool n s :
  RAPIDAPI_KEYS s <> [] ->
  exists returned,
    fst (getNextKey_times n s) = Normal returned
    /\ length returned = n
    /\ Forall (fun key => exists k, key = Some k /\ k ∈ RAPIDAPI_KEYS s) returned.
Proof.
  intros Hne. rewrite getNextKey_times_run. eexists. split; [reflexivity|].
  split; [by rewrite length_map, length_seq|].
  apply Forall_fmap, Forall_forall. intros i _.
  by apply key_at_elem.
Qed.

Lemma getNextKey_in_pool_witness :
  exists returned,
    fst (getNextKey_times 5 {| RAPIDAPI_KEYS := [u "k1"; u "k2"]; keyIndex := 7; sent := [] |})
    = Normal returned
    /\ length returned = 5.
Proof.
  destruct (getNextKey_in_pool 5
              {| RAPIDAPI_KEYS := [u "k1"; u "k2"]; keyIndex := 7; sent := [] |})
    as (returned & Hrun & Hlen & _); [discriminate|].
  exists returned. split; [exact Hrun | exact Hlen].
Defined.

(** * Startup *)

(** X6. The module loads exactly when the bot token and the webhook URL are
    set and not empty and the key variable holds a code unit that is neither
    a comma nor white space; the rotator then starts at cursor 0 over the
    parsed pool, which is not empty. *)
Theorem startup_succeeds BOT_TOKEN WEBHOOK_URL env s :
  startup BOT_TOKEN WEBHOOK_URL env = inr s <->
  default [] BOT_TOKEN <> [] /\ default [] WEBHOOK_URL <> []
  /\ ~ Forall (fun c => c = 44%N \/ is_space c = true) (default [] env)
  /\ s = initial (parse_keys env) /\ RAPIDAPI_KEYS s <> [].
Proof.
  unfold startup. rewrite <- parse_keys_nil.
  destruct (default [] BOT_TOKEN) as [|c token]; cbn [nonempty negb].
  { split; [done | by intros [? _]]. }
  destruct (default [] WEBHOOK_URL) as [|c' webhook]; cbn [nonempty negb].
  { split; [done | by intros (_ & ? & _)]. }
  destruct (parse_keys env) as [|k keys] eqn:E; cbn.
  - split; [done | by intros (_ & _ & ? & _)].
  - split.
    + intros [= <-]. by repeat split.
    + by intros (_ & _ & _ & -> & _).
Qed.

(** * More on response normalization *)

Lemma truthy_default_string (c : N) (s : list N) : truthy (VStr (c :: s)) = true.
Proof. reflexivity. Qed.



(** X8. On a payload without the top-level fields that only the second
    descriptor reads ([data.data.wmplay], [data.play], [data.title] and
    [data.author] all falsy), the two [extract] functions agree; and
    whenever the first returns a tuple, the second returns one with the same
    [videoUrl]. *)
Theorem extract2_extends_extract1 data :
  (truthy data?."data"?."wmplay" = false -> truthy data?."play" = false ->
   truthy data?."title" = false -> truthy data?."author" = false ->
   extract2 data = extract1 data)
  /\ (forall tuple1, extract1 data = Some tuple1 ->
        exists tuple2, extract2 data = Some tuple2 /\ videoUrl tuple2 = videoUrl tuple1).
Proof.
  unfold extract1, extract2. cbn zeta.
  set (a := data?."data"?."play"). set (b := data?."data"?."wmplay").
  set (c := data?."play"). set (t1 := data?."data"?."title"). set (t2 := data?."title").
  set (n1 := data?."data"?."author"?."nickname"). set (n2 := data?."author").
  clearbody a b c t1 t2 n1 n2. split.
  - intros Hb Hc Ht Hn. unfold js_or.
    destruct (truthy a) eqn:Ha; rewrite ?Ha; cbn [negb].
    + f_equal. f_equal.
      * by destruct (truthy t1) eqn:E; rewrite ?E, ?Ht.
      * by destruct (truthy n1) eqn:E; rewrite ?E, ?Hn.
    + by rewrite Hb, Hc.
  - intros tuple1. destruct (truthy a) eqn:Ha; cbn [negb]; [|done].
    intros [= <-]. rewrite !truthy_js_or, Ha. cbn [orb negb].
    eexists. split; [reflexivity|]. cbn [videoUrl]. unfold js_or. by rewrite Ha, Ha.
Qed.

(** * More on the orchestrator *)

Section MoreOrchestratorFacts.

Variable network : list request -> request -> option value.

(** Whatever the descriptor, an attempt returns a result only through the
    test of [normalized?.videoUrl]. *)
Lemma attempt_found p v s result s' :
  attempt network p v s = (Normal (Some result), s') ->
  exists play title author,
    result = Found (name p) play title author /\ truthy play = true.
Proof.
  unfold attempt, bind at 1. destruct (buildHeaders p s) as [[h|e] s1]; [|done].
  unfold bind at 1. destruct (axios_request network _ s1) as [[data|e] s2]; [|done].
  unfold bind. destruct (extract p data s2) as [[[[play title author]|]|e] s3];
    cbn [has_videoUrl videoUrl]; try done.
  destruct (truthy play) eqn:Hplay; [|done].
  intros [= <- <-]. by exists play, title, author.
Qed.



End MoreOrchestratorFacts.



Lemma fetchViaProviders_step network p f host rest v s :
  buildHeaders p = rapidapi_headers host ->
  (forall data s', extract p data s' = (Normal (f data), s')) ->
  fetchViaProviders network (p :: rest) v s =
    let s1 := {| RAPIDAPI_KEYS := RAPIDAPI_KEYS s; keyIndex := keyIndex s + 1;
                 sent := sent s ++ [request_of p host v
                                      (key_at (RAPIDAPI_KEYS s) (keyIndex s))] |} in
    match attempt_yield network p f host v s with
    | Some result => (Normal result, s1)
    | None => fetchViaProviders network rest v s1
    end.
Proof.
  intros Hhost Hpure. rewrite fetchViaProviders_cons, (attempt_run network p host v s Hhost).
  cbn zeta. unfold attempt_yield.
  destruct (network _ _) as [data|]; [|done]. rewrite Hpure.
  destruct (f data) as [[play title author]|]; [|done]. by destruct (truthy play).
Qed.


Lemma extract_not_object data :
  (forall props, data <> VObj props) -> extract1 data = None /\ extract2 data = None.
Proof.
  intros H. destruct data; try done. by destruct (H props).
Qed.

(** X12. When every response body is something other than an object (a
    string, [null], a number, an array), both descriptors are queried and
    the call returns [{ok: false}]. *)
Theorem fetchViaProviders_not_object network v s :
  (forall history req data, network history req = Some data ->
     forall props, data <> VObj props) ->
  fst (fetchViaProviders network API_PROVIDERS v s) = Normal AllFailed
  /\ sent (snd (fetchViaProviders network API_PROVIDERS v s)) = sent s ++ both_requests v s.
Proof.
  intros Hbody.
  assert (forall p f host s',
            f = extract1 \/ f = extract2 -> attempt_yield network p f host v s' = None) as Hnone.
  { intros p f host s' Hf. unfold attempt_yield.
    destruct (network _ _) as [data|] eqn:E; [|done].
    destruct (extract_not_object data (Hbody _ _ _ E)) as [H1 H2].
    by destruct Hf as [-> | ->]; rewrite ?H1, ?H2. }
  destruct (fetchViaProviders network API_PROVIDERS v s) as [r s'] eqn:Hrun.
  cbn [fst snd]. unfold API_PROVIDERS in Hrun.
  erewrite (fetchViaProviders_step network _ extract1) in Hrun by reflexivity.
  cbn zeta in Hrun. rewrite Hnone in Hrun by by left.
  erewrite (fetchViaProviders_step network _ extract2) in Hrun by reflexivity.
  cbn zeta in Hrun. rewrite Hnone in Hrun by by right.
  cbn [fetchViaProviders] in Hrun. unfold ret in Hrun.
  injection Hrun as <- <-. cbn [sent]. by rewrite <- app_assoc.
Qed.

Lemma fetchViaProviders_not_object_witness :
  fst (fetchViaProviders (fun _ _ => Some (VStr (u "<html>Bad Gateway</html>")))
         API_PROVIDERS (u "https://tiktok.com/x") (initial [u "k1"]))
  = Normal AllFailed.
Proof.
  exact (proj1 (fetchViaProviders_not_object
                  (fun _ _ => Some (VStr (u "<html>Bad Gateway</html>")))
                  (u "https://tiktok.com/x") (initial [u "k1"])
                  ltac:(intros history req data [= <-] props; discriminate))).
Defined.

(** * Calls in sequence *)

Lemma call_keys network v s :
  exists issued,
    sent (snd (fetchViaProviders network API_PROVIDERS v s)) = sent s ++ issued
    /\ keyIndex (snd (fetchViaProviders network API_PROVIDERS v s)) = keyIndex s + length issued
    /\ RAPIDAPI_KEYS (snd (fetchViaProviders network API_PROVIDERS v s)) = RAPIDAPI_KEYS s
    /\ keys_of issued = map (key_at (RAPIDAPI_KEYS s)) (seq (keyIndex s) (length issued)).
Proof.
  destruct (fetchViaProviders_effect network API_PROVIDERS v API_PROVIDERS_rotating_pure s)
    as (attempted & Hle & Hkeys & Hidx & issued & Hsent & Hurls & Hkey).
  exists issued. apply Forall2_length in Hurls. rewrite length_take in Hurls.
  assert (length issued = attempted) as Hlen by lia.
  split; [done|]. split; [by rewrite Hlen|]. split; [done|].
  apply list_eq. intros i. unfold keys_of. rewrite !list_lookup_fmap.
  destruct (issued !! i) as [req|] eqn:E.
  - rewrite lookup_seq_lt by by eapply lookup_lt_Some. cbn. f_equal. by apply Hkey.
  - rewrite lookup_seq_ge; [done|]. by apply lookup_ge_None.
Qed.

(** X13. Over any sequence of calls, whatever the networks answer, the
    pool stays as it was and the requests issued carry the credentials the
    rotator holds at consecutive cursor values, starting at the cursor the
    sequence began with: no credential is skipped or used out of turn. Over a
    pool that is not empty every request carries a key of the pool. *)
Theorem fetch_in_sequence_keys calls : forall s,
  exists issued,
    sent (fetch_in_sequence calls s) = sent s ++ issued
    /\ keyIndex (fetch_in_sequence calls s) = keyIndex s + length issued
    /\ RAPIDAPI_KEYS (fetch_in_sequence calls s) = RAPIDAPI_KEYS s
    /\ keys_of issued = map (key_at (RAPIDAPI_KEYS s)) (seq (keyIndex s) (length issued))
    /\ (RAPIDAPI_KEYS s <> [] ->
        Forall (fun key => exists k, key = Some k /\ k ∈ RAPIDAPI_KEYS s) (keys_of issued)).
Proof.
  assert (forall s, exists issued,
            sent (fetch_in_sequence calls s) = sent s ++ issued
            /\ keyIndex (fetch_in_sequence calls s) = keyIndex s + length issued
            /\ RAPIDAPI_KEYS (fetch_in_sequence calls s) = RAPIDAPI_KEYS s
            /\ keys_of issued
               = map (key_at (RAPIDAPI_KEYS s)) (seq (keyIndex s) (length issued))) as H.
  { induction calls as [|[network v] rest IH]; intros s.
    - exists []. cbn. by rewrite app_nil_r, Nat.add_0_r.
    - cbn [fetch_in_sequence].
      destruct (call_keys network v s) as (first & Hsent1 & Hidx1 & Hpool1 & Hkeys1).
      destruct (IH (snd (fetchViaProviders network API_PROVIDERS v s)))
        as (more & Hsent2 & Hidx2 & Hpool2 & Hkeys2).
      exists (first ++ more).
      rewrite Hsent2, Hsent1, Hidx2, Hidx1, Hpool2, Hpool1, length_app, <- app_assoc.
      split; [done|]. split; [lia|]. split; [done|].
      unfold keys_of in *. rewrite map_app, seq_app, map_app, Hkeys1, Hkeys2.
      by rewrite Hpool1, Hidx1. }
  intros s. destruct (H s) as (issued & Hsent & Hidx & Hpool & Hkeys).
  exists issued. repeat (split; [done|]).
  intros Hne. rewrite Hkeys. apply Forall_fmap, Forall_forall. intros i _.
  by apply key_at_elem.
Qed.

(** * More on the link validator *)

Lemma lower_ascii_idemp c : lower_ascii (lower_ascii c) = lower_ascii c.
Proof. unfold lower_ascii. N_cases. Qed.

Lemma toLowerCase_idemp s : toLowerCase (toLowerCase s) = toLowerCase s.
Proof.
  unfold toLowerCase. rewrite map_map. apply map_ext. intros c. apply lower_ascii_idemp.
Qed.

Lemma matches_Plus_NotSpace t :
  matches (Plus NotSpace) t -> forallb (fun c => negb (is_space c)) t = true.
Proof.
  intros H. remember (Plus NotSpace) as r eqn:Hr.
  induction H as [| | | | |a c Hc|a c s Hc _ IH]; try discriminate;
    injection Hr as ->; cbn in *; rewrite Hc; [done|]. by apply IH.
Qed.

Lemma optional_chars_lower pat m :
  forallb is_lower_or_dot (u pat) = true ->
  matches (Opt (chars pat)) m -> map lower_ascii m = [] \/ map lower_ascii m = u pat.
Proof.
  intros Hpat [->|Hm%matches_chars_inv]%matches_Opt_inv; [by left|].
  right. by destruct (Forall2_ci_lower_or_dot _ _ Hpat Hm).
Qed.

(** Every string the pattern denotes is a link to one of the eight hosts. *)
Lemma TIKTOK_REGEX_link m :
  matches TIKTOK_REGEX m ->
  exists sch host tail,
    link_shape m sch host tail
    /\ map lower_ascii host ∈ link_hosts
    /\ tail <> [] /\ forallb (fun c => negb (is_space c)) tail = true.
Proof.
  intros Hm. destruct (TIKTOK_REGEX_shape m Hm) as (sch0 & host0 & tail0 & Hshape0 & _).
  revert Hm. unfold TIKTOK_REGEX.
  intros (a & ? & -> & Ha%matches_chars_inv & H)%matches_Cat_inv.
  apply matches_Cat_inv in H as (b & ? & -> & Hb & H).
  apply matches_Cat_inv in H as (c & ? & -> & Hc%matches_chars_inv & H).
  apply matches_Cat_inv in H as (d & ? & -> & Hd & H).
  apply matches_Cat_inv in H as (e & ? & -> & He & H).
  apply matches_Cat_inv in H as (f & ? & -> & Hf & H).
  apply matches_Cat_inv in H as (g & tail & -> & Hg%matches_chars_inv & Htail).
  apply (Forall2_ci_lower (u "http")) in Ha as [Ha1 Ha2]; [|done].
  apply (Forall2_ci_punctuation (u "://")) in Hc as ->; [|done].
  pose proof (optional_chars_host "www." d eq_refl Hd) as Hd1.
  pose proof (optional_chars_host "m." e eq_refl He) as He1.
  pose proof (optional_chars_host "vm." f eq_refl Hf) as Hf1.
  apply (optional_chars_lower "www.") in Hd; [|done].
  apply (optional_chars_lower "m.") in He; [|done].
  apply (optional_chars_lower "vm.") in Hf; [|done].
  change (u "tiktok.com/") with (u "tiktok.com" ++ [47%N]) in Hg.
  apply Forall2_app_inv_l in Hg as (g1 & g2 & Hg1 & Hg2 & ->).
  apply (Forall2_ci_punctuation [47%N]) in Hg2 as ->; [|done].
  assert (g1 <> []) as Hne by (inversion Hg1; done).
  apply (Forall2_ci_lower_or_dot (u "tiktok.com")) in Hg1 as [Hg1 Hg1']; [|done].
  exists (a ++ b), (d ++ e ++ f ++ g1), tail.
  split; [|split; [|split; [by eapply matches_Plus_nonempty | by apply matches_Plus_NotSpace]]].
  - split; [by rewrite <- !app_assoc|].
    split; [by destruct a|].
    assert (forallb is_alpha (a ++ b) = true
            /\ map lower_ascii (a ++ b) ∈ [u "http"; u "https"]) as [Hs1 Hs2].
    { rewrite forallb_app, map_app, Ha1, Ha2.
      apply matches_Opt_inv in Hb as [->|Hb%matches_chars_inv].
      - split; [done|]. rewrite app_nil_r. by left.
      - apply (Forall2_ci_lower (u "s")) in Hb as [-> ->]; [|done].
        split; [done|]. right. by left. }
    split; [done|]. split; [done|].
    split; [by destruct d, e, f, g1|].
    by rewrite !forallb_app, Hd1, He1, Hf1, Hg1.
  - rewrite !map_app, Hg1'.
    destruct Hd as [-> | ->], He as [-> | ->], Hf as [-> | ->];
      apply (bool_decide_unpack _); by vm_compute.
Qed.

(** X14. On a first match of the pattern the URL parse never throws: the
    host name is one of the eight the pattern lets through, already in
    lower case, and whatever the rest of the parser does. The answer of
    [isTikTokUrl] is then whether that host is one of the four allowed, so
    its [catch] branch and its second [null] test are never what decides. *)
Theorem isTikTokUrl_on_match URL_beyond text m :
  String_match text TIKTOK_REGEX = Some m ->
  exists hostname,
    URL_hostname URL_beyond m = Some hostname
    /\ hostname ∈ link_hosts
    /\ toLowerCase hostname = hostname
    /\ isTikTokUrl URL_beyond text = bool_decide (hostname ∈ ALLOWED_DOMAINS).
Proof.
  intros Hmatch.
  destruct (String_match_first _ _ _ Hmatch) as (pre & post & _ & Hm & _).
  destruct (TIKTOK_REGEX_link m Hm) as (sch & host & tail & Hshape & Hhost & _).
  exists (map lower_ascii host).
  pose proof (URL_hostname_link URL_beyond m sch host tail Hshape) as Hparse.
  pose proof (toLowerCase_idemp host) as Hidem. unfold toLowerCase in Hidem.
  split; [done|]. split; [done|]. split; [done|].
  unfold isTikTokUrl.
  assert (RegExp_test TIKTOK_REGEX text = true) as ->.
  { apply RegExp_test_String_match. eauto. }
  cbn [negb]. rewrite Hmatch, Hparse. unfold toLowerCase. by rewrite Hidem.
Qed.

Lemma isTikTokUrl_on_match_witness :
  exists hostname,
    URL_hostname (fun _ => None) (u "HTTPS://WWW.M.TikTok.com/a") = Some hostname
    /\ hostname ∈ link_hosts
    /\ toLowerCase hostname = hostname
    /\ isTikTokUrl (fun _ => None) (u "see HTTPS://WWW.M.TikTok.com/a now")
       = bool_decide (hostname ∈ ALLOWED_DOMAINS).
Proof.
  exact (isTikTokUrl_on_match (fun _ => None) (u "see HTTPS://WWW.M.TikTok.com/a now")
           (u "HTTPS://WWW.M.TikTok.com/a") ltac:(vm_compute; reflexivity)).
Defined.

(** X15. [isTikTokUrl] accepts a text only if the text holds a link to one
    of the four allowed hosts: an [http] or [https] scheme, [://], the host
    itself (in any letter case), [/], and a path. A host that merely contains
    or extends an allowed one is never enough. *)
Theorem isTikTokUrl_sound URL_beyond text :
  isTikTokUrl URL_beyond text = true ->
  exists pre link post host,
    text = pre ++ link ++ post /\ host ∈ ALLOWED_DOMAINS /\ link_to host link.
Proof.
  intros (pre & m & post & (Htext & Hm & _) & hostname & Hparse & Hallowed)
    %isTikTokUrl_first_occurrence.
  destruct (TIKTOK_REGEX_link m Hm) as (sch & host & tail & Hshape & _ & Hne & Hpath).
  rewrite (URL_hostname_link URL_beyond m sch host tail Hshape) in Hparse.
  injection Hparse as <-. fold (toLowerCase host) in Hallowed.
  rewrite toLowerCase_idemp in Hallowed.
  exists pre, m, post, (toLowerCase host). split; [done|]. split; [done|].
  destruct Hshape as (-> & _ & _ & Hsch & _).
  by exists sch, host, tail.
Qed.

Lemma isTikTokUrl_sound_witness :
  exists pre link post host,
    u "check https://www.tiktok.com/@x/video/1" = pre ++ link ++ post
    /\ host ∈ ALLOWED_DOMAINS /\ link_to host link.
Proof.
  exact (isTikTokUrl_sound (fun _ => None) (u "check https://www.tiktok.com/@x/video/1")
           ltac:(vm_compute; reflexivity)).
Defined.

Lemma ci_of_lower p c :
  is_lower_or_dot p = true -> lower_ascii c = p -> ci p c.
Proof.
  unfold is_lower_or_dot, is_lower, ci, atom_matches, upper_ascii, lower_ascii.
  intros Hp Hc. N_cases.
Qed.

Lemma Forall2_ci_of_lower pat s :
  forallb is_lower_or_dot pat = true -> map lower_ascii s = pat -> Forall2 ci pat s.
Proof.
  revert pat. induction s as [|c s IH]; intros pat Hpat Hs; cbn in Hs; subst pat.
  - constructor.
  - cbn in Hpat. apply andb_prop in Hpat as [Hp Hpat]. constructor.
    + by apply ci_of_lower.
    + by apply IH.
Qed.

Lemma Forall2_ci_refl pat :
  forallb (fun p => p <? 128)%N pat = true -> Forall2 ci pat pat.
Proof.
  induction pat as [|p pat IH]; cbn; [constructor|].
  intros [Hp Hpat]%andb_prop. constructor; [|by apply IH].
  unfold ci, atom_matches. by rewrite Hp, N.eqb_refl.
Qed.

Lemma matches_chars_intro pat m :
  Forall2 ci pat m -> matches (foldr (fun c r => Cat (Atom (Lit c)) r) Eps pat) m.
Proof.
  induction 1 as [|p c pat m Hc _ IH]; cbn; [constructor|].
  change (c :: m) with ([c] ++ m). constructor; [by constructor | done].
Qed.

Lemma matches_Plus_NotSpace_intro path :
  path <> [] -> forallb (fun c => negb (is_space c)) path = true ->
  matches (Plus NotSpace) path.
Proof.
  induction path as [|c path IH]; [done|]. intros _ [Hc Hpath]%andb_prop.
  destruct path as [|c' path'].
  - by apply matches_plus_one.
  - apply matches_plus_more; [done|]. by apply IH.
Qed.

Lemma matches_TIKTOK_REGEX_parts a b d e f g path :
  Forall2 ci (u "http") a -> matches (Opt (chars "s")) b ->
  matches (Opt (chars "www.")) d -> matches (Opt (chars "m.")) e ->
  matches (Opt (chars "vm.")) f -> Forall2 ci (u "tiktok.com") g ->
  matches (Plus NotSpace) path ->
  matches TIKTOK_REGEX ((a ++ b) ++ u "://" ++ (d ++ e ++ f ++ g) ++ 47%N :: path).
Proof.
  intros Ha Hb Hd He Hf Hg Hpath.
  assert ((a ++ b) ++ u "://" ++ (d ++ e ++ f ++ g) ++ 47%N :: path
          = a ++ b ++ u "://" ++ d ++ e ++ f ++ (g ++ [47%N]) ++ path) as ->.
  { rewrite <- !app_assoc. done. }
  unfold TIKTOK_REGEX.
  apply matches_cat; [by apply (matches_chars_intro (u "http"))|].
  apply matches_cat; [done|].
  apply matches_cat;
    [by apply (matches_chars_intro (u "://")), (Forall2_ci_refl (u "://"))|].
  do 3 (apply matches_cat; [done|]).
  apply matches_cat; [|done].
  apply (matches_chars_intro (u "tiktok.com/")).
  change (u "tiktok.com/") with (u "tiktok.com" ++ [47%N]).
  apply Forall2_app; [done|]. by apply (Forall2_ci_refl [47%N]).
Qed.

Lemma matches_optional_lower pat m :
  forallb is_lower_or_dot (u pat) = true ->
  map lower_ascii m = u pat -> matches (Opt (chars pat)) m.
Proof.
  intros Hpat Hm. apply matches_opt_some, matches_chars_intro.
  by apply Forall2_ci_of_lower.
Qed.

(** A link to an allowed host is denoted by the pattern. *)
Lemma link_to_matches host link :
  host ∈ ALLOWED_DOMAINS -> link_to host link ->
  matches TIKTOK_REGEX link
  /\ exists sch raw_host path, link_shape link sch raw_host path
                               /\ map lower_ascii raw_host = host.
Proof.
  intros Hhost (sch & raw & path & -> & Hsch & Hraw & Hne & Hpath).
  unfold toLowerCase in *.
  apply matches_Plus_NotSpace_intro in Hpath; [|done].
  assert (exists a b, sch = a ++ b /\ Forall2 ci (u "http") a
                      /\ matches (Opt (chars "s")) b
                      /\ forallb is_alpha sch = true /\ sch <> []) as
    (a & b & -> & Ha & Hb & Halpha & Hsne).
  { apply elem_of_cons in Hsch as [Hs|Hs%list_elem_of_singleton].
    - exists sch, []. rewrite app_nil_r.
      pose proof (Forall2_ci_of_lower (u "http") sch eq_refl Hs) as Hci.
      destruct (Forall2_ci_lower (u "http") sch eq_refl Hci) as [Halpha _].
      repeat split; try done; [apply matches_opt_none | by destruct sch].
    - pose proof (Forall2_ci_of_lower (u "https") sch eq_refl Hs) as Hci.
      destruct (Forall2_ci_lower (u "https") sch eq_refl Hci) as [Halpha _].
      assert (sch <> []) as Hsne by by destruct sch.
      change (u "https") with (u "http" ++ u "s") in Hs.
      apply fmap_app_inv in Hs as (a & b & Ha & Hb & ->).
      exists a, b. repeat split; try done.
      + by apply (Forall2_ci_of_lower (u "http")).
      + by apply (matches_optional_lower "s"). }
  assert (exists d e f g, raw = d ++ e ++ f ++ g
                          /\ matches (Opt (chars "www.")) d
                          /\ matches (Opt (chars "m.")) e
                          /\ matches (Opt (chars "vm.")) f
                          /\ Forall2 ci (u "tiktok.com") g
                          /\ forallb is_alpha_or_dot raw = true /\ raw <> []) as
    (d & e & f & g & -> & Hd & He & Hf & Hg & Hdots & Hrne).
  { assert (forallb is_lower_or_dot host = true /\ host <> []) as [Hlow Hhne].
    { unfold ALLOWED_DOMAINS in Hhost.
      repeat (apply elem_of_cons in Hhost as [->|Hhost]; [done|]).
      by apply elem_of_nil in Hhost. }
    pose proof (Forall2_ci_of_lower host raw Hlow Hraw) as Hci.
    destruct (Forall2_ci_lower_or_dot _ _ Hlow Hci) as [Hdots _].
    assert (raw <> []) as Hrne by (intros ->; by subst host).
    unfold ALLOWED_DOMAINS in Hhost.
    apply elem_of_cons in Hhost as [->|Hhost].
    { exists [], [], [], raw. cbn. repeat split; try done; try apply matches_opt_none. }
    apply elem_of_cons in Hhost as [->|Hhost].
    { change (u "www.tiktok.com") with (u "www." ++ u "tiktok.com") in Hraw.
      apply fmap_app_inv in Hraw as (d & g & Hd & Hg & ->).
      exists d, [], [], g. cbn. repeat split; try done; try apply matches_opt_none.
      - by apply (matches_optional_lower "www.").
      - by apply (Forall2_ci_of_lower (u "tiktok.com")). }
    apply elem_of_cons in Hhost as [->|Hhost%list_elem_of_singleton].
    { change (u "m.tiktok.com") with (u "m." ++ u "tiktok.com") in Hraw.
      apply fmap_app_inv in Hraw as (e & g & He & Hg & ->).
      exists [], e, [], g. cbn. repeat split; try done; try apply matches_opt_none.
      - by apply (matches_optional_lower "m.").
      - by apply (Forall2_ci_of_lower (u "tiktok.com")). }
    subst host. change (u "vm.tiktok.com") with (u "vm." ++ u "tiktok.com") in Hraw.
    apply fmap_app_inv in Hraw as (f & g & Hf & Hg & ->).
    exists [], [], f, g. cbn. repeat split; try done; try apply matches_opt_none.
    - by apply (matches_optional_lower "vm.").
    - by apply (Forall2_ci_of_lower (u "tiktok.com")). }
  split; [by apply matches_TIKTOK_REGEX_parts|].
  exists (a ++ b), (d ++ e ++ f ++ g), path. split; [|done].
  by repeat split.
Qed.

(** X16. A text that begins with a link to one of the four allowed hosts
    (scheme and host in any letter case, a path that is not empty) is
    accepted, whatever follows the link. *)
Theorem isTikTokUrl_complete URL_beyond host link rest :
  host ∈ ALLOWED_DOMAINS -> link_to host link ->
  isTikTokUrl URL_beyond (link ++ rest) = true.
Proof.
  intros Hhost Hlink.
  destruct (link_to_matches host link Hhost Hlink)
    as (Hm & sch & raw & path & Hshape & Hlower).
  apply isTikTokUrl_first_occurrence. exists [], link, rest. split.
  - split; [done|]. split; [done|]. intros; cbn; lia.
  - exists (map lower_ascii raw). split; [by eapply URL_hostname_link|].
    fold (toLowerCase raw). rewrite toLowerCase_idemp. unfold toLowerCase.
    by rewrite Hlower.
Qed.

Lemma isTikTokUrl_complete_witness :
  isTikTokUrl (fun _ => None) (u "HTTP://VM.TikTok.com/ZMabc123/" ++ u " thanks") = true.
Proof.
  apply (isTikTokUrl_complete (fun _ => None) (u "vm.tiktok.com")).
  - apply (bool_decide_unpack _). vm_compute. exact I.
  - exists (u "HTTP"), (u "VM.TikTok.com"), (u "ZMabc123/").
    split; [reflexivity|]. split; [apply (bool_decide_unpack _); vm_compute; exact I|].
    split; [reflexivity|]. split; [discriminate | vm_compute; reflexivity].
Defined.

(** ** Letter case *)

Lemma is_space_letter c : (65 <= c <= 122)%N -> is_space c = false.
Proof.
  intros Hc. unfold is_space. apply orb_false_intro.
  - apply bool_decide_eq_false. rewrite !elem_of_cons, elem_of_nil. lia.
  - N_cases.
Qed.

Lemma lower_ascii_eq a b :
  lower_ascii a = lower_ascii b -> a = b \/ ((65 <= a <= 122)%N /\ (65 <= b <= 122)%N).
Proof. unfold lower_ascii. intros H. N_cases. Qed.

Lemma atom_matches_case a c c' :
  lower_ascii c = lower_ascii c' -> atom_matches a c = atom_matches a c'.
Proof.
  intros H. destruct a as [p|]; cbn.
  - revert H. unfold lower_ascii, upper_ascii. intros H. N_cases.
  - destruct (lower_ascii_eq c c' H) as [->|[Hc Hc']]; [done|].
    by rewrite !is_space_letter.
Qed.

Section LetterCase.

(** A change of letter case, code unit by code unit: [f] may turn an ASCII
    letter into its other case and changes nothing else. *)
Variable f : N -> N.
Hypothesis f_case : forall c, lower_ascii (f c) = lower_ascii c.
Local Set Default Proof Using "Type*".

Lemma plus_exec_case a s : plus_exec a (map f s) = map (map f) (plus_exec a s).
Proof.
  induction s as [|c s IH]; cbn; [done|].
  rewrite (atom_matches_case a (f c) c (f_case c)).
  destruct (atom_matches a c); [|done]. by rewrite IH, map_app.
Qed.

Lemma exec_case r : forall s, exec r (map f s) = map (map f) (exec r s).
Proof.
  induction r as [|a|r1 IH1 r2 IH2|r IH|a]; intros s; cbn [exec].
  - done.
  - destruct s as [|c s]; cbn; [done|].
    rewrite (atom_matches_case a (f c) c (f_case c)). by destruct (atom_matches a c).
  - rewrite IH1. induction (exec r1 s) as [|x l IHl]; cbn; [done|].
    by rewrite map_app, IH2, IHl.
  - by rewrite IH, map_app.
  - apply plus_exec_case.
Qed.

Lemma regex_search_case r s : forall index,
  regex_search r (map f s) index
  = (fun found => (fst found, map f (snd found))) <$> regex_search r s index.
Proof.
  induction s as [|c s IH]; intros index.
  - cbn [regex_search map]. destruct (exec r []) as [|rest l]; [done|].
    cbn. by rewrite !take_nil.
  - change (regex_search r (map f (c :: s)) index)
      with (match exec r (map f (c :: s)) with
            | rest :: _ =>
                Some (index, take (length (map f (c :: s)) - length rest) (map f (c :: s)))
            | [] => regex_search r (map f s) (S index)
            end).
    rewrite exec_case. cbn [regex_search].
    destruct (exec r (c :: s)) as [|rest l]; cbn [map].
    + apply IH.
    + cbn [fmap option_fmap option_map fst snd]. do 2 f_equal.
      change (f c :: map f s) with (map f (c :: s)). rewrite !length_map.
      symmetry. apply (fmap_take f).
Qed.

Lemma String_match_case r text :
  String_match (map f text) r = map f <$> String_match text r.
Proof.
  unfold String_match. rewrite regex_search_case.
  by destruct (regex_search r text 0) as [[j m]|].
Qed.

Lemma RegExp_test_case r text : RegExp_test r (map f text) = RegExp_test r text.
Proof.
  unfold RegExp_test. rewrite regex_search_case.
  by destruct (regex_search r text 0).
Qed.

Lemma map_lower_case s : map lower_ascii (map f s) = map lower_ascii s.
Proof. rewrite map_map. apply map_ext, f_case. Qed.

Lemma is_alpha_case c : is_alpha (f c) = is_alpha c.
Proof. unfold is_alpha. by rewrite f_case. Qed.

Lemma f_fixes c : is_alpha c = false -> f c = c.
Proof.
  intros Hc. pose proof (f_case c) as H. revert Hc H.
  unfold is_alpha, lower_ascii. intros Hc H. N_cases.
Qed.

Lemma link_shape_case m sch host tail :
  link_shape m sch host tail ->
  link_shape (map f m) (map f sch) (map f host) (map f tail).
Proof.
  intros (-> & Hne & Hsch & Hscheme & Hhne & Hhost).
  split; [|split; [by destruct sch|split; [|split; [by rewrite map_lower_case|
    split; [by destruct host|]]]]].
  - change (u "://") with [58; 47; 47]%N. rewrite !map_app. cbn [map].
    by rewrite (f_fixes 47), (f_fixes 58).
  - rewrite forallb_forall in Hsch |- *. intros c (c0 & <- & Hc0)%in_map_iff.
    rewrite is_alpha_case. by apply Hsch.
  - rewrite forallb_forall in Hhost |- *. intros c (c0 & <- & Hc0)%in_map_iff.
    specialize (Hhost c0 Hc0). unfold is_alpha_or_dot in *. rewrite is_alpha_case.
    destruct (is_alpha c0) eqn:E; [done|]. by rewrite (f_fixes c0 E).
Qed.

(** X17. The answer of [isTikTokUrl] does not depend on the letter case of
    the text: changing the case of any ASCII letters, anywhere in the text,
    leaves it as it was. *)
Theorem isTikTokUrl_case URL_beyond text :
  isTikTokUrl URL_beyond (map f text) = isTikTokUrl URL_beyond text.
Proof.
  unfold isTikTokUrl. rewrite RegExp_test_case, String_match_case.
  destruct (RegExp_test TIKTOK_REGEX text); [|done]. cbn [negb].
  destruct (String_match text TIKTOK_REGEX) as [m|] eqn:Hmatch; [|done]. cbn.
  destruct (String_match_first _ _ _ Hmatch) as (pre & post & _ & Hm & _).
  destruct (TIKTOK_REGEX_shape m Hm) as (sch & host & tail & Hshape & _).
  rewrite (URL_hostname_link URL_beyond _ _ _ _ (link_shape_case _ _ _ _ Hshape)).
  rewrite (URL_hostname_link URL_beyond _ _ _ _ Hshape).
  by rewrite map_lower_case.
Qed.

End LetterCase.

Lemma lower_upper_ascii c : lower_ascii (upper_ascii c) = lower_ascii c.
Proof. unfold lower_ascii, upper_ascii. N_cases. Qed.

Lemma isTikTokUrl_case_witness :
  isTikTokUrl (fun _ => None) (map upper_ascii (u "see https://vm.tiktok.com/ZMabc123/"))
  = isTikTokUrl (fun _ => None) (u "see https://vm.tiktok.com/ZMabc123/").
Proof.
  exact (isTikTokUrl_case upper_ascii lower_upper_ascii (fun _ => None)
           (u "see https://vm.tiktok.com/ZMabc123/")).
Defined.

Section BotFacts.

Variable network : list request -> request -> option value.
Variable telegram : list effect -> api_call -> option N.
Variable URL_beyond : list N -> option (list N).
Variable ToString_other : value -> list N.

Lemma show_frames_run left chat loading : forall b,
  show_frames telegram left chat loading b =
  (Fulfilled tt,
   {| process := process b;
      log := log b ++ flat_map (fun frame =>
                                  [Api (editMessageText chat loading (u "*" ++ frame ++ u "*")
                                          (Some (u "Markdown")));
                                   Sleep 400])
                               left |}).
Proof.
  induction left as [|frame rest IH]; intros b.
  - cbn. unfold bret. destruct b. cbn. by rewrite app_nil_r.
  - cbn [show_frames flat_map]. unfold bbind at 1, bcatch, bbind at 1, call.
    destruct (telegram (log b) _); cbn [bret];
      unfold bbind at 1, sleep; cbn [process log]; rewrite IH; cbn [process log];
      by rewrite <- !app_assoc.
Qed.

(** X18. The progress animation never rejects, whatever the platform
    answers to its edits: it asks for the five frames in order, each followed
    by a pause of 400 ms (2000 ms in all), and touches nothing else. *)
Theorem simulatedProgress_run chat loading b :
  simulatedProgress telegram chat loading b =
    (Fulfilled tt,
     {| process := process b; log := log b ++ progress_effects chat loading |})
  /\ length (progress_effects chat loading) = 10
  /\ total_sleep (progress_effects chat loading) = 2000%N
  /\ forallb (fun e => negb (is_Http e || is_sendVideo e)) (progress_effects chat loading)
     = true.
Proof.
  split; [apply show_frames_run|]. by vm_compute.
Qed.

Lemma fetch_run v b :
  exists result issued,
    fetchViaProviders network API_PROVIDERS v (process b)
    = (Normal result, snd (fetchViaProviders network API_PROVIDERS v (process b)))
    /\ sent (snd (fetchViaProviders network API_PROVIDERS v (process b)))
       = sent (process b) ++ issued
    /\ fetch network v b =
       (Fulfilled result,
        {| process := snd (fetchViaProviders network API_PROVIDERS v (process b));
           log := log b ++ map Http issued |}).
Proof.
  destruct (fetchViaProviders_returns network API_PROVIDERS v (process b))
    as (result & s' & Hrun).
  destruct (call_keys network v (process b)) as (issued & Hsent & _).
  exists result, issued. unfold fetch. rewrite Hrun in *. cbn [snd] in *.
  split; [done|]. split; [done|].
  by rewrite Hsent, drop_app_length.
Qed.

(** X19. For a text that [isTikTokUrl] rejects, the handler makes one call,
    the warning message, and nothing else: no provider is contacted and the
    rotation cursor stays where it was. It rejects exactly when that call
    does. *)
Theorem on_text_invalid ctx b :
  isTikTokUrl URL_beyond (trim (or_string (message_text ctx) [])) = false ->
  on_text network telegram URL_beyond ToString_other ctx b =
    (match telegram (log b) (warning_call (chat_id_of ctx)) with
     | Some _ => Fulfilled tt
     | None => Rejected TelegramError
     end,
     {| process := process b; log := log b ++ [Api (warning_call (chat_id_of ctx))] |}).
Proof.
  intros Hbad. unfold on_text. rewrite Hbad. cbn [negb].
  unfold bbind, call. fold (warning_call (chat_id_of ctx)).
  by destruct (telegram (log b) _).
Qed.

End BotFacts.

Lemma on_text_invalid_witness :
  on_text (fun _ _ => None) (fun _ _ => Some 7%N) (fun _ => None) (fun _ => [])
    {| message_text := Some (u "  hello https://eviltiktok.com/video "); chat_id_of := 5 |}
    {| process := initial [u "k1"]; log := [] |}
  = (Fulfilled tt, {| process := initial [u "k1"]; log := [Api (warning_call 5)] |}).
Proof.
  exact (on_text_invalid (fun _ _ => None) (fun _ _ => Some 7%N) (fun _ => None) (fun _ => [])
           {| message_text := Some (u "  hello https://eviltiktok.com/video ");
              chat_id_of := 5 |}
           {| process := initial [u "k1"]; log := [] |}
           ltac:(vm_compute; reflexivity)).
Defined.

(** ** A supported link *)

Section SupportedLink.

Variable network : list request -> request -> option value.
Variable telegram : list effect -> api_call -> option N.
Variable URL_beyond : list N -> option (list N).
Variable ToString_other : value -> list N.

(** The run of the handler on a supported link whose loading message was
    sent. *)
Lemma on_text_valid_run ctx b loading :
  let v := trim (or_string (message_text ctx) []) in
  let chat := chat_id_of ctx in
  isTikTokUrl URL_beyond v = true ->
  telegram (log b) (loading_call chat) = Some loading ->
  exists result issued closing outcome,
    fetchViaProviders network API_PROVIDERS v (process b)
    = (Normal result, snd (fetchViaProviders network API_PROVIDERS v (process b)))
    /\ sent (snd (fetchViaProviders network API_PROVIDERS v (process b)))
       = sent (process b) ++ issued
    /\ closes telegram ToString_other chat loading
         (log b ++ Api (loading_call chat) :: progress_effects chat loading ++ map Http issued)
         result closing outcome
    /\ on_text network telegram URL_beyond ToString_other ctx b =
       (outcome,
        {| process := snd (fetchViaProviders network API_PROVIDERS v (process b));
           log := (log b ++ Api (loading_call chat) :: progress_effects chat loading
                   ++ map Http issued) ++ map Api closing |}).
Proof.
  intros v chat Hok Hloading. unfold on_text. fold v chat. rewrite Hok. cbn [negb].
  unfold bbind at 1, call at 1. fold (loading_call chat). rewrite Hloading.
  unfold bcatch, bbind at 1, simulatedProgress. rewrite show_frames_run.
  fold (progress_effects chat loading). cbn [process log].
  destruct (fetch_run network v
              {| process := process b;
                 log := (log b ++ [Api (loading_call chat)])
                        ++ progress_effects chat loading |})
    as (result & issued & Hrun & Hsent & Hfetch).
  cbn [process log] in Hrun, Hsent, Hfetch.
  unfold bbind at 1. rewrite Hfetch. clear Hfetch.
  assert (((log b ++ [Api (loading_call chat)]) ++ progress_effects chat loading)
          ++ map Http issued
          = log b ++ Api (loading_call chat) :: progress_effects chat loading
            ++ map Http issued) as -> by by rewrite <- !app_assoc.
  set (l := log b ++ Api (loading_call chat) :: progress_effects chat loading
            ++ map Http issued).
  exists result, issued.
  destruct result as [provider videoUrl title author|].
  - fold (sending_call chat loading).
    fold (video_call ToString_other chat provider videoUrl title author).
    fold (error_call chat loading).
    unfold bbind at 1, call at 1. cbn [process log].
    destruct (telegram l (sending_call chat loading)) as [id|] eqn:Hsending.
    + unfold bbind at 1, call at 1. cbn [process log].
      destruct (telegram (l ++ [Api (sending_call chat loading)]) _) as [id'|] eqn:Hvideo.
      * eexists _, _. split; [done|]. split; [done|].
        split; [by eapply closes_video|]. subst l. cbn [bret map].
        by rewrite <- !app_assoc.
      * eexists _, _. split; [done|]. split; [done|].
        split; [by eapply closes_video_error|].
        unfold bbind, call. cbn [process log].
        destruct (telegram _ (error_call chat loading)); subst l; cbn [bret map];
          by rewrite <- !app_assoc.
    + eexists _, _. split; [done|]. split; [done|].
      split; [by eapply closes_sending_error|].
      unfold bbind, call. cbn [process log].
      destruct (telegram _ (error_call chat loading)); subst l; cbn [bret map];
        by rewrite <- !app_assoc.
  - fold (failed_call chat loading). fold (error_call chat loading).
    unfold bbind at 1, call at 1. cbn [process log].
    destruct (telegram l (failed_call chat loading)) as [id|] eqn:Hfailed.
    + eexists _, _. split; [done|]. split; [done|].
      split; [by eapply closes_failed|]. cbn [bret map]. done.
    + eexists _, _. split; [done|]. split; [done|].
      split; [by eapply closes_failed_error|].
      unfold bbind, call. cbn [process log].
      destruct (telegram _ (error_call chat loading)); subst l; cbn [bret map];
        by rewrite <- !app_assoc.
Qed.

End SupportedLink.

Section HandlerProperties.

Variable network : list request -> request -> option value.
Variable telegram : list effect -> api_call -> option N.
Variable URL_beyond : list N -> option (list N).
Variable ToString_other : value -> list N.

Lemma fetch_result_truthy registry v s provider play title author :
  fst (fetchViaProviders network registry v s) = Normal (Found provider play title author) ->
  truthy play = true.
Proof.
  revert s. induction registry as [|p rest IH]; intros s; [done|].
  rewrite fetchViaProviders_cons.
  destruct (attempt network p v s) as [[[result|]|e] s'] eqn:Hrun; [|apply IH..].
  apply attempt_found in Hrun as (play' & title' & author' & -> & Hplay).
  by intros [= <- <- <- <-].
Qed.

Lemma closes_outcome chat loading l result closing outcome :
  closes telegram ToString_other chat loading l result closing outcome ->
  (outcome = Fulfilled tt
   \/ outcome = Rejected TelegramError
      /\ exists l', telegram l' (error_call chat loading) = None)
  /\ 1 <= length closing <= 3
  /\ forall c, c ∈ closing ->
       c = failed_call chat loading \/ c = sending_call chat loading
       \/ c = error_call chat loading
       \/ exists provider videoUrl title author,
            result = Found provider videoUrl title author
            /\ c = video_call ToString_other chat provider videoUrl title author.
Proof.
  intros H. split; [|split].
  - destruct H; try (by left);
      (destruct (telegram _ (error_call chat loading)) eqn:E; [by left | right; eauto]).
  - destruct H; cbn; lia.
  - intros c Hc. destruct H;
      repeat (apply elem_of_cons in Hc as [->|Hc]; [eauto 10|]);
      by apply elem_of_nil in Hc.
Qed.

(** X20. The handler rejects only with the platform's error, and only when
    the platform rejected the warning message, the loading message, or the
    closing error edit. Whatever the providers answer, and whether the
    animation edits, the status edits or the video message are accepted or
    not, nothing else makes it reject. *)
Theorem on_text_rejects ctx b e :
  fst (on_text network telegram URL_beyond ToString_other ctx b) = Rejected e ->
  e = TelegramError
  /\ exists l c,
       telegram l c = None
       /\ (c = warning_call (chat_id_of ctx) \/ c = loading_call (chat_id_of ctx)
           \/ exists loading, c = error_call (chat_id_of ctx) loading).
Proof.
  destruct (isTikTokUrl URL_beyond (trim (or_string (message_text ctx) []))) eqn:Hok.
  - destruct (telegram (log b) (loading_call (chat_id_of ctx))) as [loading|] eqn:Hloading.
    + destruct (on_text_valid_run network telegram URL_beyond ToString_other ctx b loading
                  Hok Hloading) as (result & issued & closing & outcome & _ & _ & Hc & ->).
      cbn [fst]. intros ->.
      destruct (closes_outcome _ _ _ _ _ _ Hc) as ([?|[[= <-] [l' Hl']]] & _); [done|].
      split; [done|]. exists l', (error_call (chat_id_of ctx) loading). eauto.
    + unfold on_text. rewrite Hok. cbn [negb]. unfold bbind at 1, call at 1.
      fold (loading_call (chat_id_of ctx)). rewrite Hloading. cbn [fst]. intros [= <-].
      split; [done|]. exists (log b), (loading_call (chat_id_of ctx)). eauto.
  - unfold on_text. rewrite Hok. cbn [negb]. unfold bbind at 1, call at 1.
    fold (warning_call (chat_id_of ctx)).
    destruct (telegram (log b) (warning_call (chat_id_of ctx))) eqn:Hwarning; [done|].
    cbn [fst]. intros [= <-].
    split; [done|]. exists (log b), (warning_call (chat_id_of ctx)). eauto.
Qed.

(** X21. A video message enters the log only for a supported link for which
    [fetchViaProviders] returned [{ok: true}]: it goes to the chat of the
    update and carries that result's [videoUrl], which is truthy. One run of
    the handler sends at most one. *)
Theorem on_text_video ctx b :
  let v := trim (or_string (message_text ctx) []) in
  let b' := snd (on_text network telegram URL_beyond ToString_other ctx b) in
  exists new,
    log b' = log b ++ new
    /\ length (List.filter is_sendVideo new) <= 1
    /\ forall chat url caption parse_mode streaming markup,
         Api (sendVideo chat url caption parse_mode streaming markup) ∈ new ->
         isTikTokUrl URL_beyond v = true
         /\ chat = chat_id_of ctx
         /\ truthy url = true
         /\ exists provider title author,
              fst (fetchViaProviders network API_PROVIDERS v (process b))
              = Normal (Found provider url title author).
Proof.
  intros v b'. subst b'.
  destruct (isTikTokUrl URL_beyond v) eqn:Hok.
  - destruct (telegram (log b) (loading_call (chat_id_of ctx))) as [loading|] eqn:Hloading.
    + destruct (on_text_valid_run network telegram URL_beyond ToString_other ctx b loading
                  Hok Hloading) as (result & issued & closing & outcome & Hrun & _ & Hc & ->).
      fold v in Hrun. cbn [snd log]. rewrite <- app_assoc. eexists. split; [reflexivity|].
      destruct (closes_outcome _ _ _ _ _ _ Hc) as (_ & _ & Hcalls).
      assert (forall issued', List.filter is_sendVideo (map Http issued') = []) as Hhttp.
      { intros issued'. by induction issued'. }
      split.
      * cbn [app List.filter is_sendVideo loading_call].
        rewrite !List.filter_app, Hhttp.
        change (List.filter is_sendVideo (progress_effects _ _)) with (@nil effect).
        cbn [app]. destruct Hc; cbn; lia.
      * intros chat url caption parse_mode streaming markup Hin.
        change (Api (loading_call (chat_id_of ctx)) :: progress_effects (chat_id_of ctx) loading
                ++ map Http issued)
          with ((Api (loading_call (chat_id_of ctx))
                 :: progress_effects (chat_id_of ctx) loading) ++ map Http issued) in Hin.
        rewrite !elem_of_app in Hin. destruct Hin as [[Hin|Hin]|Hin].
        -- exfalso. revert Hin. unfold progress_effects, frames, loading_call.
           cbn [flat_map app]. rewrite !elem_of_cons, elem_of_nil.
           intros H. repeat (destruct H as [H|H]; [discriminate H|]). done.
        -- apply list_elem_of_fmap in Hin as (req & [=] & _).
        -- apply list_elem_of_fmap in Hin as (c & [= <-] & Hin).
           destruct (Hcalls _ Hin) as [[=]|[[=]|[[=]|Hvideo]]].
           destruct Hvideo as (provider & videoUrl & title & author & -> & [= -> -> _ _ _ _]).
           split; [done|]. split; [done|].
           split; [|exists provider, title, author; by rewrite Hrun].
           eapply fetch_result_truthy. by rewrite Hrun.
    + exists [Api (loading_call (chat_id_of ctx))].
      unfold on_text. fold v. rewrite Hok. cbn [negb]. unfold bbind at 1, call at 1.
      fold (loading_call (chat_id_of ctx)). rewrite Hloading. cbn [snd log].
      split; [done|]. split; [cbn; lia|].
      intros chat url caption parse_mode streaming markup Hin.
      by apply list_elem_of_singleton in Hin.
  - exists [Api (warning_call (chat_id_of ctx))].
    unfold on_text. fold v. rewrite Hok. cbn [negb]. unfold bbind at 1, call at 1.
    fold (warning_call (chat_id_of ctx)).
    split; [by destruct (telegram (log b) _)|]. split; [cbn; lia|].
    intros chat url caption parse_mode streaming markup Hin.
    by apply list_elem_of_singleton in Hin.
Qed.

(** X22. For a supported link whose loading message was sent, the log grows
    by: the loading message; the ten effects of the animation, with their
    2000 ms of pauses; the provider requests of the fetch; and one to three
    closing calls. So no provider is contacted before the animation is over,
    and the cursor advances by the number of provider requests. *)
Theorem on_text_valid ctx b loading :
  let v := trim (or_string (message_text ctx) []) in
  let chat := chat_id_of ctx in
  let b' := snd (on_text network telegram URL_beyond ToString_other ctx b) in
  isTikTokUrl URL_beyond v = true ->
  telegram (log b) (loading_call chat) = Some loading ->
  exists issued closing,
    log b' = log b ++ Api (loading_call chat) :: progress_effects chat loading
             ++ map Http issued ++ map Api closing
    /\ 1 <= length closing <= 3
    /\ process b' = snd (fetchViaProviders network API_PROVIDERS v (process b))
    /\ sent (process b') = sent (process b) ++ issued
    /\ keyIndex (process b') = keyIndex (process b) + length issued
    /\ RAPIDAPI_KEYS (process b') = RAPIDAPI_KEYS (process b).
Proof.
  intros v chat b' Hok Hloading. subst b'.
  destruct (on_text_valid_run network telegram URL_beyond ToString_other ctx b loading
              Hok Hloading) as (result & issued & closing & outcome & _ & Hsent & Hc & ->).
  fold v chat in Hsent, Hc |- *. cbn [snd log process].
  exists issued, closing.
  destruct (closes_outcome _ _ _ _ _ _ Hc) as (_ & Hlen & _).
  destruct (call_keys network v (process b)) as (issued' & Hsent' & Hidx & Hpool & _).
  rewrite Hsent in Hsent'. apply app_inv_head in Hsent' as <-.
  split; [by rewrite <- app_assoc, <- app_comm_cons, <- app_assoc|].
  split; [exact Hlen|]. split; [reflexivity|]. split; [exact Hsent|].
  split; [exact Hidx | exact Hpool].
Qed.

End HandlerProperties.

Lemma on_text_rejects_witness :
  TelegramError = TelegramError
  /\ exists l c,
       (fun (_ : list effect) (_ : api_call) => @None N) l c = None
       /\ (c = warning_call 5 \/ c = loading_call 5 \/ exists loading, c = error_call 5 loading).
Proof.
  exact (on_text_rejects (fun _ _ => None) (fun _ _ => None) (fun _ => None) (fun _ => [])
           {| message_text := Some (u "hello"); chat_id_of := 5 |}
           {| process := initial [u "k1"]; log := [] |}
           TelegramError ltac:(vm_compute; reflexivity)).
Defined.

Lemma on_text_valid_witness :
  exists issued closing,
    log (snd (on_text (fun _ _ => Some payload_nested) (fun _ _ => Some 7%N)
                (fun _ => None) (fun _ => [])
                {| message_text := Some (u " https://vm.tiktok.com/ZMabc123/ ");
                   chat_id_of := 5 |}
                {| process := initial [u "k1"; u "k2"]; log := [] |}))
    = [] ++ Api (loading_call 5) :: progress_effects 5 7
      ++ map Http issued ++ map Api closing
    /\ length issued = 1 /\ length closing = 2.
Proof.
  destruct (on_text_valid (fun _ _ => Some payload_nested) (fun _ _ => Some 7%N)
              (fun _ => None) (fun _ => [])
              {| message_text := Some (u " https://vm.tiktok.com/ZMabc123/ ");
                 chat_id_of := 5 |}
              {| process := initial [u "k1"; u "k2"]; log := [] |} 7%N
              ltac:(vm_compute; reflexivity) eq_refl)
    as (issued & closing & Hlog & _ & _ & _ & Hidx & _).
  exists issued, closing. split; [exact Hlog|].
  assert (length issued = 1) as Hissued.
  { vm_compute in Hidx. symmetry. exact Hidx. }
  split; [exact Hissued|].
  apply (f_equal length) in Hlog.
  assert (length (log (snd (on_text (fun _ _ => Some payload_nested) (fun _ _ => Some 7%N)
                              (fun _ => None) (fun _ => [])
                              {| message_text := Some (u " https://vm.tiktok.com/ZMabc123/ ");
                                 chat_id_of := 5 |}
                              {| process := initial [u "k1"; u "k2"]; log := [] |}))) = 14)
    as Hfourteen by (vm_compute; reflexivity).
  rewrite Hfourteen in Hlog. cbn [log chat_id_of app length] in Hlog.
  rewrite !length_app, !length_map, Hissued in Hlog.
  change (length (progress_effects 5 7)) with 10 in Hlog. lia.
Defined.
